(** * Panorama walkthrough viewer: the scene registry, the footstep placement
    resolver, the navigation state and the footstep interaction handlers of
    [src/components/Map.tsx], embedded as functions and verified.

    Conventions of the embedding.
    - A JavaScript [number] that holds a coordinate or an angle is an IEEE 754
      binary64 value: Rocq's primitive [float], with [Math.PI] the double
      nearest to pi and [*] the correctly rounded product.
    - A scene id is an integer-valued [number]; it is a [Z].  The only
      operations the component applies to an id are [===] and the truthiness
      test of [||], for which 0 is the one falsy integer.
    - [null] and [undefined] (a missing optional field, a failed [find]) are
      [None].
    - React state is passed explicitly: a handler maps a state to the state
      the next render sees; a render that throws is [Thrown].
    - Texture loading belongs to the rendering engine: a render is taken at
      the point where the requested texture is available. *)

From Stdlib Require Import ZArith List String Bool Floats Lia.
Import ListNotations.

Set Warnings "-inexact-float".
Local Open Scope string_scope.
Local Open Scope Z_scope.

(** ** Numbers, truthiness and the operators [||] and [?.] *)

Definition Math_PI : float := 0x1.921fb54442d18p+1%float.

Definition Vec3 : Type := (float * float * float)%type.

(** ToBoolean of a coordinate or angle: [+0], [-0] and [NaN] are falsy. *)
Definition truthy_number (x : float) : bool :=
  (negb (PrimFloat.eqb x 0%float) && PrimFloat.eqb x x)%bool.

(** ToBoolean of an id. *)
Definition truthy_id (i : Z) : bool := negb (i =? 0).

(** ToBoolean of an array or object: always truthy. *)
Definition truthy_object {A : Type} (_ : A) : bool := true.

(** [a?.f]: the field of [a], or undefined when [a] is. *)
Definition chain {A B : Type} (a : option A) (f : A -> option B) : option B :=
  match a with
  | Some v => f v
  | None => None
  end.

(** [a || b] with a right operand that is always a value. *)
Definition or_else {A : Type} (truthy : A -> bool) (a : option A) (b : A) : A :=
  match a with
  | Some v => if truthy v then v else b
  | None => b
  end.

(** [a || null]. *)
Definition or_null {A : Type} (truthy : A -> bool) (a : option A) : option A :=
  match a with
  | Some v => if truthy v then Some v else None
  | None => None
  end.

(** ** Data model *)

Module FootstepPosition.
Record t : Type := mk { position : Vec3; rotation : float }.
End FootstepPosition.

Module PanoramaImage.
Record t : Type := mk {
  id : Z;
  name : string;
  url : string;
  position : Vec3;
  prev : option Z;
  next : option Z;
  prevFootstep : option FootstepPosition.t;
  nextFootstep : option FootstepPosition.t
}.
End PanoramaImage.

Inductive Direction : Type := DirPrev | DirNext.

Definition Direction_eqb (a b : Direction) : bool :=
  match a, b with
  | DirPrev, DirPrev | DirNext, DirNext => true
  | _, _ => false
  end.

(** The object built by [getPrevFootstepData] and [getNextFootstepData],
    spread into the props of [Footstep]. *)
Module FootstepData.
Record t : Type := mk {
  position : Vec3;
  rotation : float;
  targetId : option Z;
  direction : Direction
}.
End FootstepData.

(** ** The compiled-in registry *)

Definition entrance : PanoramaImage.t :=
  PanoramaImage.mk 1 "Entrance" "/assets/360%20images/1-Entrance.jpeg"
    (0, 0, 0)%float None (Some 2)
    None
    (Some (FootstepPosition.mk (3, -4, 3)%float (Math_PI * -0.75)%float)).

Definition windowTable : PanoramaImage.t :=
  PanoramaImage.mk 2 "Window Table" "/assets/360%20images/2-Window%20Table.jpeg"
    (5, 0, 0)%float (Some 1) (Some 3)
    (Some (FootstepPosition.mk (-5, -4, 2)%float (Math_PI * 0.5)%float))
    (Some (FootstepPosition.mk (5, -4, 0)%float (Math_PI * -0.5)%float)).

Definition windowTable2 : PanoramaImage.t :=
  PanoramaImage.mk 3 "Window Table 2" "/assets/360%20images/3-Window%20Table%202.jpeg"
    (10, 0, 0)%float (Some 2) (Some 4)
    (Some (FootstepPosition.mk (1.5, -4, -5)%float (Math_PI * 2)%float))
    (Some (FootstepPosition.mk (0, -4, 5)%float Math_PI)).

Definition corner : PanoramaImage.t :=
  PanoramaImage.mk 4 "Corner" "/assets/360%20images/4-Corner.jpeg"
    (5, 0, -5)%float (Some 3) None
    (Some (FootstepPosition.mk (-3, -4, 8)%float (Math_PI * 0.7)%float))
    None.

Definition panoramaImages : list PanoramaImage.t :=
  [entrance; windowTable; windowTable2; corner].

(** [images.find((img) => img.id === i)]: the first record with that id. *)
Definition find_image (images : list PanoramaImage.t) (i : Z)
  : option PanoramaImage.t :=
  find (fun img => PanoramaImage.id img =? i) images.

(** ** Placement resolver ([PanoramaSphere]) *)

Definition prevDefaultPosition : Vec3 := (-3, -4, 5)%float.
Definition prevDefaultRotation : float := (Math_PI * 0.75)%float.
Definition nextDefaultPosition : Vec3 := (3, -4, 5)%float.
Definition nextDefaultRotation : float := (Math_PI * 0.25)%float.

Definition getPrevFootstepData (currentPanorama : option PanoramaImage.t)
  : FootstepData.t :=
  let prevFootstep := chain currentPanorama PanoramaImage.prevFootstep in
  {| FootstepData.position :=
       or_else truthy_object
         (option_map FootstepPosition.position prevFootstep) prevDefaultPosition;
     FootstepData.rotation :=
       or_else truthy_number
         (option_map FootstepPosition.rotation prevFootstep) prevDefaultRotation;
     FootstepData.targetId :=
       or_null truthy_id (chain currentPanorama PanoramaImage.prev);
     FootstepData.direction := DirPrev |}.

Definition getNextFootstepData (currentPanorama : option PanoramaImage.t)
  : FootstepData.t :=
  let nextFootstep := chain currentPanorama PanoramaImage.nextFootstep in
  {| FootstepData.position :=
       or_else truthy_object
         (option_map FootstepPosition.position nextFootstep) nextDefaultPosition;
     FootstepData.rotation :=
       or_else truthy_number
         (option_map FootstepPosition.rotation nextFootstep) nextDefaultRotation;
     FootstepData.targetId :=
       or_null truthy_id (chain currentPanorama PanoramaImage.next);
     FootstepData.direction := DirNext |}.

(** The resolver by direction: the first [Footstep] of [PanoramaSphere] gets
    the previous data, the second the next data. *)
Definition getFootstepData (d : Direction) (currentPanorama : option PanoramaImage.t)
  : FootstepData.t :=
  match d with
  | DirPrev => getPrevFootstepData currentPanorama
  | DirNext => getNextFootstepData currentPanorama
  end.

(** What the spec calls the scene's link, override and default per direction. *)
Definition link (d : Direction) (img : PanoramaImage.t) : option Z :=
  match d with
  | DirPrev => PanoramaImage.prev img
  | DirNext => PanoramaImage.next img
  end.

Definition override (d : Direction) (img : PanoramaImage.t)
  : option FootstepPosition.t :=
  match d with
  | DirPrev => PanoramaImage.prevFootstep img
  | DirNext => PanoramaImage.nextFootstep img
  end.

Definition defaultPosition (d : Direction) : Vec3 :=
  match d with
  | DirPrev => prevDefaultPosition
  | DirNext => nextDefaultPosition
  end.

Definition defaultRotation (d : Direction) : float :=
  match d with
  | DirPrev => prevDefaultRotation
  | DirNext => nextDefaultRotation
  end.

(** ** Navigation state ([Map]) *)

Record MapState : Type := { currentImageId : Z }.

(** [useState(1)]. *)
Definition initialMapState : MapState := {| currentImageId := 1 |}.

Definition setCurrentImageId (imageId : Z) (_ : MapState) : MapState :=
  {| currentImageId := imageId |}.

Definition handleNavigate (imageId : Z) (st : MapState) : MapState :=
  setCurrentImageId imageId st.

(** The callback of the k-th button of the navigation bar,
    [() => setCurrentImageId(img.id)]; there is no button past the list. *)
Definition navButton_onClick (images : list PanoramaImage.t) (k : nat)
  (st : MapState) : MapState :=
  match nth_error images k with
  | Some img => setCurrentImageId (PanoramaImage.id img) st
  | None => st
  end.

(** Navigations dispatched one after the other, and the states passed through. *)
Definition navigateAll (ids : list Z) (st : MapState) : MapState :=
  fold_left (fun s i => handleNavigate i s) ids st.

Fixpoint navigateTrace (ids : list Z) (st : MapState) : list MapState :=
  match ids with
  | [] => []
  | i :: rest => let st' := handleNavigate i st in st' :: navigateTrace rest st'
  end.

(** ** The footstep hotspot ([Footstep]) *)

Record FootstepState : Type := {
  hovered : bool;
  scale : float;
  (** a [setInterval] started by the effect is live *)
  interval : bool;
  (** the dependency array [hovered, isDisabled] of the effect's last run *)
  effectDeps : option (bool * bool)
}.

Definition initialFootstepState : FootstepState :=
  {| hovered := false; scale := 1%float; interval := false; effectDeps := None |}.

Definition isDisabled (props : FootstepData.t) : bool :=
  match FootstepData.targetId props with
  | None => true
  | Some _ => false
  end.

Definition setHovered (h : bool) (st : FootstepState) : FootstepState :=
  {| hovered := h; scale := scale st; interval := interval st;
     effectDeps := effectDeps st |}.

Definition setScale (f : float -> float) (st : FootstepState) : FootstepState :=
  {| hovered := hovered st; scale := f (scale st); interval := interval st;
     effectDeps := effectDeps st |}.

(** [() => !isDisabled && setHovered(true)] *)
Definition Footstep_onPointerOver (props : FootstepData.t) (st : FootstepState)
  : FootstepState :=
  if negb (isDisabled props) then setHovered true st else st.

(** [() => setHovered(false)] *)
Definition Footstep_onPointerOut (_ : FootstepData.t) (st : FootstepState)
  : FootstepState :=
  setHovered false st.

(** What a click handler does to the outside: it stops the event and calls
    the [onClick] prop. *)
Inductive Command : Type :=
| StopPropagation
| OnClick (targetId : Z).

Definition handleClick (props : FootstepData.t) : list Command :=
  StopPropagation ::
  match FootstepData.targetId props with
  | Some t => [OnClick t]
  | None => []
  end.

(** [onClick={isDisabled ? undefined : handleClick}]: [None] is no handler. *)
Definition Footstep_onClick (props : FootstepData.t) : option (list Command) :=
  if isDisabled props then None else Some (handleClick props).

Definition same_deps (old : option (bool * bool)) (new : bool * bool) : bool :=
  match old with
  | Some (h, d) => Bool.eqb h (fst new) && Bool.eqb d (snd new)
  | None => false
  end.

(** The pulse effect after a commit.  It runs on mount and when [hovered] or
    [isDisabled] changed; the cleanup of its previous run clears the interval
    that run had started. *)
Definition Footstep_useEffect (props : FootstepData.t) (st : FootstepState)
  : FootstepState :=
  let deps := (hovered st, isDisabled props) in
  if same_deps (effectDeps st) deps then st
  else if hovered st && negb (isDisabled props) then
    {| hovered := hovered st; scale := scale st; interval := true;
       effectDeps := Some deps |}
  else
    {| hovered := hovered st; scale := 1%float; interval := false;
       effectDeps := Some deps |}.

(** The interval callback, [setScale((prev) => (prev === 1 ? 1.1 : 1))]; it
    fires only while the interval is live. *)
Definition Footstep_tick (st : FootstepState) : FootstepState :=
  if interval st
  then setScale (fun prev => if PrimFloat.eqb prev 1%float then 1.1%float else 1%float) st
  else st.

Definition nextColor : string := "#61dafb".
Definition prevColor : string := "#fb6161".
Definition disabledColor : string := "#888888".

Record ArrowView : Type := {
  arrow_z : float;
  arrow_rotation_y : float;
  arrow_color : string;
  arrow_opacity : float
}.

Record LabelView : Type := {
  label_backgroundColor : string;
  label_text : string
}.

Record FootstepView : Type := {
  group_position : Vec3;
  group_rotation_y : float;
  mesh_scale : float;
  mesh_onClick : option (list Command);
  material_opacity : float;
  material_color : string;
  arrow : option ArrowView;
  label : option LabelView
}.

(** A child [{x}] with [x] undefined renders nothing. *)
Definition text_of (x : option string) : string :=
  match x with
  | Some s => s
  | None => ""
  end.

Definition Footstep_render (images : list PanoramaImage.t)
  (props : FootstepData.t) (st : FootstepState) : FootstepView :=
  let direction := FootstepData.direction props in
  let isNext := Direction_eqb direction DirNext in
  {| group_position := FootstepData.position props;
     group_rotation_y := FootstepData.rotation props;
     mesh_scale := scale st;
     mesh_onClick := Footstep_onClick props;
     material_opacity :=
       if isDisabled props then 0.3%float
       else if hovered st then 1%float else 0.7%float;
     material_color :=
       if isDisabled props then disabledColor
       else if isNext then nextColor else prevColor;
     arrow :=
       if negb (isDisabled props) then
         Some {| arrow_z := if isNext then 0.5%float else (-0.5)%float;
                 arrow_rotation_y := if isNext then 0%float else Math_PI;
                 arrow_color := if isNext then nextColor else prevColor;
                 arrow_opacity := if hovered st then 1%float else 0.7%float |}
       else None;
     label :=
       if hovered st then
         match FootstepData.targetId props with
         | Some targetId =>
             Some {| label_backgroundColor :=
                       if isNext then "rgba(97, 218, 251, 0.7)"
                       else "rgba(251, 97, 97, 0.7)";
                     label_text :=
                       (if isNext then "Next: " else "Previous: ") ++
                       text_of (option_map PanoramaImage.name
                                  (find_image images targetId)) |}
         | None => None
         end
       else None |}.

(** ** The panorama sphere ([PanoramaSphere]) and its camera *)

Record SphereState : Type := {
  (** [lastPositionRef.current] *)
  lastPositionRef : option string;
  (** the [imageUrl] of the dependency array at the effect's last run; the
      other dependency, the canvas' default camera, is the same object on
      every render *)
  imageUrlDep : option string;
  (** [camera.rotation] *)
  cameraRotation : Vec3;
  (** how many times [camera.rotation.set(0, 0, 0)] has been called *)
  cameraResets : nat
}.

Definition initialSphereState : SphereState :=
  {| lastPositionRef := None; imageUrlDep := None;
     cameraRotation := (0, 0, 0)%float; cameraResets := 0%nat |}.

Definition string_opt_eqb (a : option string) (b : string) : bool :=
  match a with
  | Some s => String.eqb s b
  | None => false
  end.

(** The body of the camera effect:
    [if (lastPositionRef.current !== imageUrl) { camera.rotation.set(0, 0, 0);
    lastPositionRef.current = imageUrl; }] *)
Definition resetCameraIfChanged (imageUrl : string) (st : SphereState)
  : SphereState :=
  if negb (string_opt_eqb (lastPositionRef st) imageUrl) then
    {| lastPositionRef := Some imageUrl; imageUrlDep := imageUrlDep st;
       cameraRotation := (0, 0, 0)%float;
       cameraResets := Datatypes.S (cameraResets st) |}
  else st.

(** The camera effect after a commit: the body runs on mount and when the
    dependency array changed. *)
Definition PanoramaSphere_useEffect (imageUrl : string) (st : SphereState)
  : SphereState :=
  if string_opt_eqb (imageUrlDep st) imageUrl then st
  else
    let st' := resetCameraIfChanged imageUrl st in
    {| lastPositionRef := lastPositionRef st'; imageUrlDep := Some imageUrl;
       cameraRotation := cameraRotation st'; cameraResets := cameraResets st' |}.

(** The orbit controls turn the camera as the user drags. *)
Definition orbit (r : Vec3) (st : SphereState) : SphereState :=
  {| lastPositionRef := lastPositionRef st; imageUrlDep := imageUrlDep st;
     cameraRotation := r; cameraResets := cameraResets st |}.

Record SphereView : Type := {
  texture : string;
  footsteps : list FootstepView
}.

Definition PanoramaSphere_render (images : list PanoramaImage.t)
  (imageUrl : string) (currentImageId : Z)
  (prevSt nextSt : FootstepState) : SphereView :=
  let currentPanorama := find_image images currentImageId in
  {| texture := imageUrl;
     footsteps :=
       [ Footstep_render images (getPrevFootstepData currentPanorama) prevSt;
         Footstep_render images (getNextFootstepData currentPanorama) nextSt ] |}.

(** ** The whole component tree ([Map]) *)

Record App : Type := {
  mapSt : MapState;
  prevSt : FootstepState;
  nextSt : FootstepState;
  sphereSt : SphereState
}.

Definition initialApp : App :=
  {| mapSt := initialMapState; prevSt := initialFootstepState;
     nextSt := initialFootstepState; sphereSt := initialSphereState |}.

(** Reading a property of [undefined] throws a TypeError. *)
Inductive Exception : Type := TypeError.

Inductive Render (A : Type) : Type :=
| Rendered (a : A)
| Thrown (e : Exception).

Arguments Rendered {A} a.
Arguments Thrown {A} e.

Record MapView : Type := {
  sphere : SphereView;
  locationIndicator : string;
  (** name and [active] class of each button of the navigation bar *)
  navButtons : list (string * bool)
}.

(** [Map]'s render.  The props [imageUrl={currentImage!.url}] and
    [currentImageName={currentImage!.name}] are evaluated here; the [!] is
    erased by the compiler, so a failed lookup throws. *)
Definition Map_render (images : list PanoramaImage.t) (app : App) : Render MapView :=
  let currentImageId := currentImageId (mapSt app) in
  match find_image images currentImageId with
  | None => Thrown TypeError
  | Some currentImage =>
      Rendered
        {| sphere :=
             PanoramaSphere_render images (PanoramaImage.url currentImage)
               currentImageId (prevSt app) (nextSt app);
           locationIndicator := PanoramaImage.name currentImage;
           navButtons :=
             map (fun img => (PanoramaImage.name img,
                              currentImageId =? PanoramaImage.id img)) images |}
  end.

(** The props each footstep holds after the last render. *)
Definition footstepProps (images : list PanoramaImage.t) (d : Direction) (app : App)
  : FootstepData.t :=
  getFootstepData d (find_image images (currentImageId (mapSt app))).

Definition footstepSt (d : Direction) (app : App) : FootstepState :=
  match d with
  | DirPrev => prevSt app
  | DirNext => nextSt app
  end.

Definition withFootstepSt (d : Direction) (st : FootstepState) (app : App) : App :=
  match d with
  | DirPrev => {| mapSt := mapSt app; prevSt := st; nextSt := nextSt app;
                  sphereSt := sphereSt app |}
  | DirNext => {| mapSt := mapSt app; prevSt := prevSt app; nextSt := st;
                  sphereSt := sphereSt app |}
  end.

Definition withMapSt (st : MapState) (app : App) : App :=
  {| mapSt := st; prevSt := prevSt app; nextSt := nextSt app;
     sphereSt := sphereSt app |}.

(** A footstep's click commands reach [Map] through [onClick={onNavigate}]. *)
Definition runCommand (c : Command) (app : App) : App :=
  match c with
  | StopPropagation => app
  | OnClick targetId => withMapSt (handleNavigate targetId (mapSt app)) app
  end.

Inductive Event : Type :=
| PointerOver (d : Direction)
| PointerOut (d : Direction)
| Click (d : Direction)
| Tick (d : Direction)
| NavButton (k : nat)
| Orbit (r : Vec3).

(** The handler an event reaches, run on the state of the last render. *)
Definition handle (images : list PanoramaImage.t) (ev : Event) (app : App) : App :=
  match ev with
  | PointerOver d =>
      withFootstepSt d
        (Footstep_onPointerOver (footstepProps images d app) (footstepSt d app)) app
  | PointerOut d =>
      withFootstepSt d
        (Footstep_onPointerOut (footstepProps images d app) (footstepSt d app)) app
  | Click d =>
      match Footstep_onClick (footstepProps images d app) with
      | Some commands => fold_left (fun a c => runCommand c a) commands app
      | None => app
      end
  | Tick d => withFootstepSt d (Footstep_tick (footstepSt d app)) app
  | NavButton k => withMapSt (navButton_onClick images k (mapSt app)) app
  | Orbit r =>
      {| mapSt := mapSt app; prevSt := prevSt app; nextSt := nextSt app;
         sphereSt := orbit r (sphereSt app) |}
  end.

(** Render and commit: [Map] renders (or throws), then the effects of the two
    footsteps and of the sphere run against the props of that render. *)
Definition commit (images : list PanoramaImage.t) (app : App) : Render App :=
  match Map_render images app with
  | Thrown e => Thrown e
  | Rendered view =>
      Rendered
        {| mapSt := mapSt app;
           prevSt := Footstep_useEffect (footstepProps images DirPrev app) (prevSt app);
           nextSt := Footstep_useEffect (footstepProps images DirNext app) (nextSt app);
           sphereSt :=
             PanoramaSphere_useEffect (texture (sphere view)) (sphereSt app) |}
  end.

Definition step (images : list PanoramaImage.t) (app : App) (ev : Event) : Render App :=
  commit images (handle images ev app).

Definition mount (images : list PanoramaImage.t) : Render App :=
  commit images initialApp.

(** A run of events from a mounted tree; a throw ends it. *)
Fixpoint run (images : list PanoramaImage.t) (app : App) (evs : list Event)
  : Render App :=
  match evs with
  | [] => Rendered app
  | ev :: rest =>
      match step images app ev with
      | Rendered app' => run images app' rest
      | Thrown e => Thrown e
      end
  end.

(** The states the tree passes through. *)
Inductive reachable (images : list PanoramaImage.t) : App -> Prop :=
| reachable_mount : forall app,
    mount images = Rendered app -> reachable images app
| reachable_step : forall app ev app',
    reachable images app -> step images app ev = Rendered app' ->
    reachable images app'.

(** ** Registry well-formedness, as the spec words it *)

Definition ids (images : list PanoramaImage.t) : list Z :=
  map PanoramaImage.id images.

Definition valid_id (images : list PanoramaImage.t) (i : Z) : Prop :=
  In i (ids images).

Record well_formed (images : list PanoramaImage.t) : Prop := {
  wf_unique : NoDup (ids images);
  wf_positive : forall i, valid_id images i -> 0 < i;
  wf_symmetric : forall a b,
    In a images -> In b images ->
    PanoramaImage.next a = Some (PanoramaImage.id b) ->
    PanoramaImage.prev b = Some (PanoramaImage.id a);
  wf_one_head : exists h, In h images /\ PanoramaImage.prev h = None /\
    forall a, In a images -> PanoramaImage.prev a = None -> a = h;
  wf_one_tail : exists t, In t images /\ PanoramaImage.next t = None /\
    forall a, In a images -> PanoramaImage.next a = None -> a = t;
  wf_links : forall a d i, In a images -> link d a = Some i -> valid_id images i
}.

(** Every scene id a record holds (its own, its links) is a positive integer. *)
Definition positive_ids (img : PanoramaImage.t) : Prop :=
  0 < PanoramaImage.id img /\ forall d i, link d img = Some i -> 0 < i.

(** The user's interactions with one footstep. *)
Inductive Interaction : Type := HoverEnter | HoverExit | ClickOn.

Definition interactionEvent (d : Direction) (i : Interaction) : Event :=
  match i with
  | HoverEnter => PointerOver d
  | HoverExit => PointerOut d
  | ClickOn => Click d
  end.

(** How a footstep with no target is drawn, whatever its state. *)
Definition disabledView (props : FootstepData.t) : FootstepView :=
  {| group_position := FootstepData.position props;
     group_rotation_y := FootstepData.rotation props;
     mesh_scale := 1%float;
     mesh_onClick := None;
     material_opacity := 0.3%float;
     material_color := disabledColor;
     arrow := None;
     label := None |}.

Definition footstepView (images : list PanoramaImage.t) (d : Direction) (app : App)
  : FootstepView :=
  Footstep_render images (footstepProps images d app) (footstepSt d app).

(** The image reference on display in a state. *)
Definition displayedUrl (images : list PanoramaImage.t) (app : App) : option string :=
  option_map PanoramaImage.url (find_image images (currentImageId (mapSt app))).

(** The tree of the compiled-in registry after mounting. *)
Definition mountedApp : App :=
  match mount panoramaImages with
  | Rendered app => app
  | Thrown _ => initialApp
  end.

Definition directionPrefix (d : Direction) : string :=
  match d with
  | DirPrev => "Previous: "
  | DirNext => "Next: "
  end.

(** ** Invariants of the running tree *)

(** A live interval was started by an effect run with [hovered] and not
    [isDisabled]; with no live interval the scale is back at 1. *)
Definition footstep_coherent (st : FootstepState) : Prop :=
  (interval st = true -> effectDeps st = Some (true, false)) /\
  (interval st = false -> scale st = 1%float).

(** The ref is written only by the effect, together with its dependency. *)
Definition sphere_coherent (st : SphereState) : Prop :=
  lastPositionRef st = imageUrlDep st.

(** Between commits, while a handler runs. *)
Definition handling_invariant (app : App) : Prop :=
  (forall d, footstep_coherent (footstepSt d app)) /\
  sphere_coherent (sphereSt app).

(** After a commit: the current id resolves, and every effect has seen the
    props and state of the last render. *)
Record committed_invariant (images : list PanoramaImage.t) (app : App) : Prop := {
  inv_current : exists img,
    find_image images (currentImageId (mapSt app)) = Some img;
  inv_coherent : handling_invariant app;
  inv_footstep_deps : forall d,
    effectDeps (footstepSt d app) =
    Some (hovered (footstepSt d app), isDisabled (footstepProps images d app));
  inv_sphere_ref : lastPositionRef (sphereSt app) = displayedUrl images app
}.

(** A state whose current id is not in the compiled-in registry. *)
Definition strayApp : App :=
  withMapSt (handleNavigate 99 (mapSt mountedApp)) mountedApp.

(** The interval is live after every effect run that saw [hovered] and not
    [isDisabled], and the pulse moves the scale between 1 and 1.1 only. *)
Definition footstep_pulse_invariant (st : FootstepState) : Prop :=
  (effectDeps st = Some (true, false) -> interval st = true) /\
  (scale st = 1%float \/ scale st = 1.1%float).

(** A tree on which a commit has nothing to do: the current id resolves and
    every dependency array is the one its effect last ran with. *)
Definition settled (images : list PanoramaImage.t) (app : App) : Prop :=
  (exists img, find_image images (currentImageId (mapSt app)) = Some img) /\
  (forall d,
     effectDeps (footstepSt d app) =
     Some (hovered (footstepSt d app), isDisabled (footstepProps images d app))) /\
  imageUrlDep (sphereSt app) = displayedUrl images app.

(** A registry made of the first scene alone: its [next] link, 2, dangles. *)
Definition entranceAlone : list PanoramaImage.t := [entrance].

(** An event whose handler has nothing to write: a hover-enter or click on a
    footstep without target, a hover-exit from a footstep that is not hovered,
    a tick of a timer that is not live, a navigation button that is missing
    or is the current scene's, a drag to the rotation the camera has. *)
Definition idle (images : list PanoramaImage.t) (app : App) (ev : Event) : Prop :=
  match ev with
  | PointerOver d | Click d =>
      FootstepData.targetId (footstepProps images d app) = None
  | PointerOut d => hovered (footstepSt d app) = false
  | Tick d => interval (footstepSt d app) = false
  | NavButton k =>
      match nth_error images k with
      | Some img => PanoramaImage.id img = currentImageId (mapSt app)
      | None => True
      end
  | Orbit r => cameraRotation (sphereSt app) = r
  end.

(** [hovered] of footstep [d'] after the handler of an event. *)
Definition hoveredAfter (images : list PanoramaImage.t) (app : App) (ev : Event)
  (d' : Direction) : bool :=
  match ev with
  | PointerOver d =>
      if Direction_eqb d d' && negb (isDisabled (footstepProps images d app))
      then true else hovered (footstepSt d' app)
  | PointerOut d =>
      if Direction_eqb d d' then false else hovered (footstepSt d' app)
  | _ => hovered (footstepSt d' app)
  end.

(** The mounted tree with the pointer over the Next footstep, then after one
    tick of that footstep's timer, then with the pointer gone again. *)
Definition hoveredApp : App :=
  match step panoramaImages mountedApp (PointerOver DirNext) with
  | Rendered app => app
  | Thrown _ => mountedApp
  end.

Definition pulsedApp : App :=
  match step panoramaImages hoveredApp (Tick DirNext) with
  | Rendered app => app
  | Thrown _ => hoveredApp
  end.

Definition restedApp : App :=
  match step panoramaImages pulsedApp (PointerOut DirNext) with
  | Rendered app => app
  | Thrown _ => pulsedApp
  end.

(** * Proofs *)

(** ** The operators *)

Lemma truthy_id_positive (i : Z) : 0 < i -> truthy_id i = true.
Proof.
  intros Hpos. unfold truthy_id.
  destruct (Z.eqb_spec i 0) as [-> | _]; [lia | reflexivity].
Qed.

Lemma or_null_truthy {A : Type} (truthy : A -> bool) (a : option A) :
  (forall v, a = Some v -> truthy v = true) -> or_null truthy a = a.
Proof.
  intros Hall. destruct a as [v |]; simpl; [| reflexivity].
  now rewrite (Hall v eq_refl).
Qed.

Lemma or_null_some {A : Type} (truthy : A -> bool) (a : option A) (v : A) :
  or_null truthy a = Some v -> a = Some v.
Proof.
  destruct a as [w |]; simpl; [| discriminate].
  destruct (truthy w); [now intros [= ->] | discriminate].
Qed.

Lemma float_neq_by_eqb (x y : float) :
  PrimFloat.eqb x y = false -> PrimFloat.eqb y y = true -> x <> y.
Proof.
  intros Hxy Hyy Heq. rewrite Heq in Hxy. congruence.
Qed.

(** ** The registry lookup *)

Lemma find_image_some (images : list PanoramaImage.t) (i : Z) (img : PanoramaImage.t) :
  find_image images i = Some img -> In img images /\ PanoramaImage.id img = i.
Proof.
  unfold find_image. intros Hfind.
  apply find_some in Hfind as [Hin Heq].
  split; [exact Hin | now apply Z.eqb_eq].
Qed.

Lemma find_image_none (images : list PanoramaImage.t) (i : Z) :
  find_image images i = None -> ~ valid_id images i.
Proof.
  unfold find_image, valid_id, ids. intros Hnone Hin.
  apply in_map_iff in Hin as (img & Hid & Hin).
  pose proof (find_none _ _ Hnone img Hin) as Hneq.
  apply Z.eqb_neq in Hneq. contradiction.
Qed.

Lemma find_image_valid (images : list PanoramaImage.t) (i : Z) :
  valid_id images i ->
  exists img, find_image images i = Some img /\ In img images /\
              PanoramaImage.id img = i.
Proof.
  intros Hvalid. destruct (find_image images i) as [img |] eqn:Hfind.
  - exists img. apply find_image_some in Hfind as [Hin Hid]. auto.
  - now apply find_image_none in Hfind.
Qed.

Lemma find_image_unique (images : list PanoramaImage.t) (img : PanoramaImage.t) :
  NoDup (ids images) -> In img images ->
  find_image images (PanoramaImage.id img) = Some img.
Proof.
  unfold find_image, ids.
  induction images as [| a rest IH]; intros Hnodup Hin; [contradiction |].
  simpl in *. inversion Hnodup as [| ? ? Hnotin Hrest]; subst.
  destruct Hin as [-> | Hin].
  - now rewrite Z.eqb_refl.
  - destruct (Z.eqb_spec (PanoramaImage.id a) (PanoramaImage.id img)) as [Heq | _].
    + exfalso. apply Hnotin. rewrite Heq. now apply in_map.
    + now apply IH.
Qed.

(** ** The placement resolver *)

Lemma resolver_direction (d : Direction) (cp : option PanoramaImage.t) :
  FootstepData.direction (getFootstepData d cp) = d.
Proof. now destruct d. Qed.

Lemma resolver_targetId_raw (d : Direction) (img : PanoramaImage.t) :
  FootstepData.targetId (getFootstepData d (Some img)) = or_null truthy_id (link d img).
Proof. now destruct d. Qed.

(** The position is the override's whenever there is one: an array is truthy. *)
Lemma resolver_position (d : Direction) (img : PanoramaImage.t) :
  FootstepData.position (getFootstepData d (Some img)) =
  match override d img with
  | Some o => FootstepPosition.position o
  | None => defaultPosition d
  end.
Proof. destruct d; simpl; unfold override; simpl; now destruct (_ img). Qed.

(** The rotation is the override's when that angle is truthy. *)
Lemma resolver_rotation_override (d : Direction) (img : PanoramaImage.t)
  (o : FootstepPosition.t) :
  override d img = Some o -> truthy_number (FootstepPosition.rotation o) = true ->
  FootstepData.rotation (getFootstepData d (Some img)) = FootstepPosition.rotation o.
Proof.
  destruct d; simpl; intros -> Htruthy; simpl; now rewrite Htruthy.
Qed.

(** With no override the placement is the direction's constant, the same for
    every scene. *)
Lemma resolver_defaults (d : Direction) (img : PanoramaImage.t) :
  override d img = None ->
  FootstepData.position (getFootstepData d (Some img)) = defaultPosition d /\
  FootstepData.rotation (getFootstepData d (Some img)) = defaultRotation d.
Proof. destruct d; simpl; intros ->; now split. Qed.


(** An override angle that is falsy ([+0], [-0], [NaN]) gives way to the default. *)
Lemma resolver_rotation_falsy (d : Direction) (img : PanoramaImage.t)
  (o : FootstepPosition.t) :
  override d img = Some o -> truthy_number (FootstepPosition.rotation o) = false ->
  FootstepData.rotation (getFootstepData d (Some img)) = defaultRotation d.
Proof.
  destruct d; simpl; intros -> Hfalsy; simpl; now rewrite Hfalsy.
Qed.



(** C2: for a scene whose ids are positive integers, the resolved target of
    the Previous footstep is the scene's [prev] and that of the Next footstep
    its [next]. *)
Theorem resolver_targetId_is_link (img : PanoramaImage.t) :
  positive_ids img ->
  FootstepData.targetId (getPrevFootstepData (Some img)) = PanoramaImage.prev img /\
  FootstepData.targetId (getNextFootstepData (Some img)) = PanoramaImage.next img.
Proof.
  intros [_ Hlinks]. split.
  - apply (or_null_truthy truthy_id). intros v Hv.
    apply truthy_id_positive, (Hlinks DirPrev v Hv).
  - apply (or_null_truthy truthy_id). intros v Hv.
    apply truthy_id_positive, (Hlinks DirNext v Hv).
Qed.

Lemma resolver_targetId_is_link_witness :
  positive_ids windowTable /\
  FootstepData.targetId (getPrevFootstepData (Some windowTable)) = Some 1 /\
  FootstepData.targetId (getNextFootstepData (Some windowTable)) = Some 3.
Proof.
  assert (Hpos : positive_ids windowTable).
  { split; [reflexivity |].
    intros [|] i Hi; simpl in Hi; injection Hi as <-; reflexivity. }
  split; [exact Hpos |].
  exact (resolver_targetId_is_link windowTable Hpos).
Defined.

(** On the compiled-in registry the resolver, reached through the lookup of
    the current id, returns each scene's own links. *)
Lemma registry_targets (d : Direction) (img : PanoramaImage.t) :
  In img panoramaImages ->
  FootstepData.targetId
    (getFootstepData d (find_image panoramaImages (PanoramaImage.id img))) =
  link d img.
Proof.
  intros Hin. simpl in Hin.
  repeat (destruct Hin as [<- | Hin]; [now destruct d |]).
  contradiction.
Qed.

(** ** The registry *)

Ltac each_scene H :=
  simpl in H;
  repeat (let E := fresh "E" in destruct H as [E | H]; [subst |]);
  [.. | contradiction].

Lemma panoramaImages_links (a : PanoramaImage.t) (d : Direction) (i : Z) :
  In a panoramaImages -> link d a = Some i -> valid_id panoramaImages i.
Proof.
  unfold valid_id, ids. intros Ha.
  each_scene Ha; destruct d; simpl; intros Hlink;
    solve [discriminate | injection Hlink as <-; auto 6].
Qed.

(** C5: the compiled-in registry is a well-formed doubly-linked chain: ids
    unique and positive, [next]/[prev] symmetric, one head, one tail, and every
    link an id of the registry. *)
Theorem panoramaImages_well_formed : well_formed panoramaImages.
Proof.
  constructor.
  - unfold ids; simpl.
    repeat (constructor; [simpl; intuition discriminate |]). constructor.
  - unfold valid_id, ids; simpl. intros i Hi. intuition (subst; reflexivity).
  - intros a b Ha Hb. each_scene Ha; each_scene Hb; simpl; intros Hnext;
      solve [reflexivity | discriminate].
  - exists entrance. repeat split; [simpl; auto |].
    intros a Ha. each_scene Ha; simpl; intros Hprev;
      solve [reflexivity | discriminate].
  - exists corner. repeat split; [simpl; auto 6 |].
    intros a Ha. each_scene Ha; simpl; intros Hnext;
      solve [reflexivity | discriminate].
  - exact panoramaImages_links.
Qed.

(** ** The navigation state *)

Lemma handleNavigate_sets (i : Z) (st : MapState) :
  currentImageId (handleNavigate i st) = i.
Proof. reflexivity. Qed.

Lemma handleNavigate_current (st : MapState) :
  handleNavigate (currentImageId st) st = st.
Proof. now destruct st. Qed.

(** C3: navigating to a valid id sets the current id to it, whatever the
    state was; the lookup of the new current id finds a scene of the registry
    with that id; navigating to the current id leaves the state as it was, and
    navigating twice is navigating once. *)
Theorem navigate_roundtrip (images : list PanoramaImage.t) (i : Z) (st : MapState) :
  valid_id images i ->
  currentImageId (handleNavigate i st) = i /\
  (exists img,
     find_image images (currentImageId (handleNavigate i st)) = Some img /\
     In img images /\ PanoramaImage.id img = i) /\
  (currentImageId st = i -> handleNavigate i st = st) /\
  handleNavigate i (handleNavigate i st) = handleNavigate i st.
Proof.
  intros Hvalid. split; [reflexivity |]. split.
  - rewrite handleNavigate_sets. now apply find_image_valid.
  - split; [| reflexivity]. intros <-. apply handleNavigate_current.
Qed.

Lemma navigate_roundtrip_witness :
  valid_id panoramaImages 3 /\
  currentImageId (handleNavigate 3 initialMapState) = 3 /\
  (exists img,
     find_image panoramaImages (currentImageId (handleNavigate 3 initialMapState)) =
       Some img /\
     In img panoramaImages /\ PanoramaImage.id img = 3) /\
  (currentImageId initialMapState = 3 ->
   handleNavigate 3 initialMapState = initialMapState) /\
  handleNavigate 3 (handleNavigate 3 initialMapState) =
    handleNavigate 3 initialMapState.
Proof.
  assert (Hvalid : valid_id panoramaImages 3) by (unfold valid_id; simpl; auto).
  split; [exact Hvalid |].
  exact (navigate_roundtrip panoramaImages 3 initialMapState Hvalid).
Defined.

Lemma navigateTrace_ids (l : list Z) (st : MapState) :
  map currentImageId (navigateTrace l st) = l.
Proof.
  revert st. induction l as [| i rest IH]; intros st; simpl; [reflexivity |].
  now rewrite IH.
Qed.

Lemma navigateTrace_last (l : list Z) (st d : MapState) :
  last (navigateTrace l st) d =
  match l with
  | [] => d
  | _ :: _ => navigateAll l st
  end.
Proof.
  revert st d. induction l as [| i rest IH]; intros st d; [reflexivity |].
  cbn [navigateTrace]. destruct rest as [| j rest']; [reflexivity |].
  change (navigateAll (i :: j :: rest') st)
    with (navigateAll (j :: rest') (handleNavigate i st)).
  rewrite <- (IH (handleNavigate i st) d). reflexivity.
Qed.

Lemma navigateAll_last (l : list Z) (st : MapState) :
  navigateAll l st = last (navigateTrace l st) st.
Proof. rewrite navigateTrace_last. now destruct l. Qed.

(** C6: from scene 1, navigate(2), navigate(1), navigate(3) pass through the
    states 2, 1, 3 and end at 3; in general each state of a sequence of
    navigations is the id navigated last, and the final state is the last of
    them.  The same three jumps through the navigation bar of the mounted
    tree end at scene 3. *)
Theorem navigations_in_dispatch_order :
  map currentImageId (navigateTrace [2; 1; 3] initialMapState) = [2; 1; 3] /\
  currentImageId (navigateAll [2; 1; 3] initialMapState) = 3 /\
  (forall l st,
     map currentImageId (navigateTrace l st) = l /\
     navigateAll l st = last (navigateTrace l st) st) /\
  (exists app,
     run panoramaImages mountedApp [NavButton 1; NavButton 0; NavButton 2] =
       Rendered app /\
     currentImageId (mapSt app) = 3).
Proof.
  split; [reflexivity |]. split; [reflexivity |]. split.
  - intros l st. split; [apply navigateTrace_ids | apply navigateAll_last].
  - eexists. split; [vm_compute; reflexivity | reflexivity].
Qed.

(** ** Handlers and commits *)

Lemma footstepSt_withFootstepSt (d d' : Direction) (st : FootstepState) (app : App) :
  footstepSt d' (withFootstepSt d st app) =
  if Direction_eqb d d' then st else footstepSt d' app.
Proof. now destruct d, d', app. Qed.

Lemma mapSt_withFootstepSt (d : Direction) (st : FootstepState) (app : App) :
  mapSt (withFootstepSt d st app) = mapSt app.
Proof. now destruct d. Qed.

Lemma sphereSt_withFootstepSt (d : Direction) (st : FootstepState) (app : App) :
  sphereSt (withFootstepSt d st app) = sphereSt app.
Proof. now destruct d. Qed.

Lemma footstepSt_withMapSt (d : Direction) (st : MapState) (app : App) :
  footstepSt d (withMapSt st app) = footstepSt d app.
Proof. now destruct d. Qed.

Lemma isDisabled_true (props : FootstepData.t) :
  FootstepData.targetId props = None -> isDisabled props = true.
Proof. unfold isDisabled. now intros ->. Qed.

Lemma isDisabled_false (props : FootstepData.t) (t : Z) :
  FootstepData.targetId props = Some t -> isDisabled props = false.
Proof. unfold isDisabled. now intros ->. Qed.

(** A click on a footstep either is not handled or navigates to the
    footstep's target. *)
Lemma handle_click (images : list PanoramaImage.t) (d : Direction) (app : App) :
  handle images (Click d) app =
  match FootstepData.targetId (footstepProps images d app) with
  | Some t => withMapSt (handleNavigate t (mapSt app)) app
  | None => app
  end.
Proof.
  unfold handle, Footstep_onClick, handleClick, isDisabled.
  now destruct (FootstepData.targetId (footstepProps images d app)).
Qed.

(** Only a click on an enabled footstep and a button of the navigation bar
    write the current id. *)
Lemma handle_mapSt (images : list PanoramaImage.t) (ev : Event) (app : App) :
  mapSt (handle images ev app) =
  match ev with
  | Click d =>
      match FootstepData.targetId (footstepProps images d app) with
      | Some t => handleNavigate t (mapSt app)
      | None => mapSt app
      end
  | NavButton k => navButton_onClick images k (mapSt app)
  | _ => mapSt app
  end.
Proof.
  destruct ev as [d | d | d | d | k | r]; try (simpl; now rewrite ?mapSt_withFootstepSt).
  rewrite handle_click.
  now destruct (FootstepData.targetId (footstepProps images d app)).
Qed.

Lemma handle_sphere_refs (images : list PanoramaImage.t) (ev : Event) (app : App) :
  lastPositionRef (sphereSt (handle images ev app)) = lastPositionRef (sphereSt app) /\
  imageUrlDep (sphereSt (handle images ev app)) = imageUrlDep (sphereSt app) /\
  cameraResets (sphereSt (handle images ev app)) = cameraResets (sphereSt app).
Proof.
  destruct ev as [d | d | d | d | k | r];
    try (simpl; rewrite ?sphereSt_withFootstepSt; now repeat split).
  rewrite handle_click.
  now destruct (FootstepData.targetId (footstepProps images d app)).
Qed.

Lemma commit_rendered (images : list PanoramaImage.t) (app app' : App) :
  commit images app = Rendered app' ->
  exists img,
    find_image images (currentImageId (mapSt app)) = Some img /\
    mapSt app' = mapSt app /\
    (forall d, footstepSt d app' =
               Footstep_useEffect (footstepProps images d app) (footstepSt d app)) /\
    sphereSt app' = PanoramaSphere_useEffect (PanoramaImage.url img) (sphereSt app).
Proof.
  unfold commit, Map_render.
  destruct (find_image images (currentImageId (mapSt app))) as [img |]; [| discriminate].
  intros [= <-]. exists img. repeat split. now intros [|].
Qed.

Lemma commit_of_found (images : list PanoramaImage.t) (app : App) (img : PanoramaImage.t) :
  find_image images (currentImageId (mapSt app)) = Some img ->
  exists app', commit images app = Rendered app'.
Proof. unfold commit, Map_render. intros ->. eauto. Qed.

(** ** The footstep's pulse effect *)

Lemma Footstep_useEffect_hovered (props : FootstepData.t) (st : FootstepState) :
  hovered (Footstep_useEffect props st) = hovered st.
Proof.
  unfold Footstep_useEffect.
  destruct (same_deps _ _); [reflexivity |].
  now destruct (hovered st && negb (isDisabled props))%bool.
Qed.

Lemma same_deps_true (old : option (bool * bool)) (new : bool * bool) :
  same_deps old new = true -> old = Some new.
Proof.
  destruct old as [[h d] |], new as [h' d']; simpl; [| discriminate].
  intros H. apply andb_prop in H as [Hh Hd].
  apply Bool.eqb_prop in Hh, Hd. now subst.
Qed.

Lemma Footstep_useEffect_deps (props : FootstepData.t) (st : FootstepState) :
  effectDeps (Footstep_useEffect props st) = Some (hovered st, isDisabled props).
Proof.
  unfold Footstep_useEffect.
  destruct (same_deps _ _) eqn:Hsame; [now apply same_deps_true |].
  now destruct (hovered st && negb (isDisabled props))%bool.
Qed.

Lemma Footstep_useEffect_coherent (props : FootstepData.t) (st : FootstepState) :
  footstep_coherent st -> footstep_coherent (Footstep_useEffect props st).
Proof.
  unfold Footstep_useEffect. intros Hco.
  destruct (same_deps _ _); [exact Hco |].
  destruct (hovered st && negb (isDisabled props))%bool eqn:Hpulse; split; simpl;
    try discriminate; try reflexivity.
  intros _. apply andb_prop in Hpulse as [-> Hen].
  apply negb_true_iff in Hen. now rewrite Hen.
Qed.

Lemma handle_coherent (images : list PanoramaImage.t) (ev : Event) (app : App) :
  (forall d, footstep_coherent (footstepSt d app)) ->
  forall d, footstep_coherent (footstepSt d (handle images ev app)).
Proof.
  intros Hco d'.
  destruct ev as [d | d | d | d | k | r]; simpl.
  - rewrite footstepSt_withFootstepSt.
    destruct (Direction_eqb d d'); [| apply Hco].
    unfold Footstep_onPointerOver. destruct (negb _); apply Hco.
  - rewrite footstepSt_withFootstepSt.
    destruct (Direction_eqb d d'); [| apply Hco]. apply Hco.
  - change (footstep_coherent (footstepSt d' (handle images (Click d) app))).
    rewrite handle_click.
    destruct (FootstepData.targetId (footstepProps images d app));
      rewrite ?footstepSt_withMapSt; apply Hco.
  - rewrite footstepSt_withFootstepSt.
    destruct (Direction_eqb d d'); [| apply Hco].
    unfold Footstep_tick. destruct (interval (footstepSt d app)) eqn:Hint; [| apply Hco].
    destruct (Hco d) as [Hlive _]. split; simpl; [exact Hlive | congruence].
  - rewrite footstepSt_withMapSt. apply Hco.
  - destruct d'; [exact (Hco DirPrev) | exact (Hco DirNext)].
Qed.

(** ** The sphere's camera effect *)

Lemma string_opt_eqb_true (a : option string) (b : string) :
  string_opt_eqb a b = true <-> a = Some b.
Proof.
  destruct a as [s |]; simpl; [| split; discriminate].
  rewrite String.eqb_eq. split; congruence.
Qed.

Lemma string_opt_eqb_false (a : option string) (b : string) :
  string_opt_eqb a b = false <-> a <> Some b.
Proof.
  rewrite <- string_opt_eqb_true. now destruct (string_opt_eqb a b).
Qed.

Lemma PanoramaSphere_useEffect_refs (imageUrl : string) (st : SphereState) :
  sphere_coherent st ->
  lastPositionRef (PanoramaSphere_useEffect imageUrl st) = Some imageUrl /\
  imageUrlDep (PanoramaSphere_useEffect imageUrl st) = Some imageUrl.
Proof.
  unfold sphere_coherent, PanoramaSphere_useEffect, resetCameraIfChanged. intros Hco.
  destruct (string_opt_eqb (imageUrlDep st) imageUrl) eqn:Hdep.
  - apply string_opt_eqb_true in Hdep. split; congruence.
  - destruct (string_opt_eqb (lastPositionRef st) imageUrl) eqn:Href; simpl;
      [| now split].
    apply string_opt_eqb_true in Href. now split.
Qed.

(** On a commit with the image that is already on display the effect leaves
    the camera alone. *)
Lemma PanoramaSphere_useEffect_same (imageUrl : string) (st : SphereState) :
  sphere_coherent st -> lastPositionRef st = Some imageUrl ->
  PanoramaSphere_useEffect imageUrl st = st.
Proof.
  unfold sphere_coherent, PanoramaSphere_useEffect. intros Hco Href.
  rewrite Hco in Href. apply string_opt_eqb_true in Href. now rewrite Href.
Qed.

(** On a commit with another image it sets the rotation to (0, 0, 0), once. *)
Lemma PanoramaSphere_useEffect_changed (imageUrl : string) (st : SphereState) :
  sphere_coherent st -> lastPositionRef st <> Some imageUrl ->
  cameraRotation (PanoramaSphere_useEffect imageUrl st) = (0, 0, 0)%float /\
  cameraResets (PanoramaSphere_useEffect imageUrl st) = Datatypes.S (cameraResets st).
Proof.
  unfold sphere_coherent, PanoramaSphere_useEffect, resetCameraIfChanged.
  intros Hco Href.
  assert (Hdep : string_opt_eqb (imageUrlDep st) imageUrl = false)
    by (apply string_opt_eqb_false; congruence).
  apply string_opt_eqb_false in Href. rewrite Hdep, Href. now split.
Qed.

(** ** Invariants *)

Lemma footstepProps_mapSt (images : list PanoramaImage.t) (d : Direction)
  (app app' : App) :
  mapSt app' = mapSt app -> footstepProps images d app' = footstepProps images d app.
Proof. unfold footstepProps. now intros ->. Qed.

Lemma displayedUrl_mapSt (images : list PanoramaImage.t) (app app' : App) :
  mapSt app' = mapSt app -> displayedUrl images app' = displayedUrl images app.
Proof. unfold displayedUrl. now intros ->. Qed.

Lemma initial_handling_invariant : handling_invariant initialApp.
Proof.
  split; [| reflexivity].
  intros [|]; split; simpl; solve [discriminate | reflexivity].
Qed.

Lemma handle_handling_invariant (images : list PanoramaImage.t) (ev : Event) (app : App) :
  handling_invariant app -> handling_invariant (handle images ev app).
Proof.
  intros [Hsteps Hsphere]. split.
  - now apply handle_coherent.
  - unfold sphere_coherent in *.
    destruct (handle_sphere_refs images ev app) as (-> & -> & _). exact Hsphere.
Qed.

Lemma commit_invariant (images : list PanoramaImage.t) (app app' : App) :
  handling_invariant app -> commit images app = Rendered app' ->
  committed_invariant images app'.
Proof.
  intros [Hsteps Hsphere] Hcommit.
  apply commit_rendered in Hcommit as (img & Hfind & Hmap & Hfoot & Hsph).
  destruct (PanoramaSphere_useEffect_refs (PanoramaImage.url img) _ Hsphere)
    as [Href Hdep].
  constructor.
  - exists img. now rewrite Hmap.
  - split.
    + intros d. rewrite Hfoot. now apply Footstep_useEffect_coherent.
    + unfold sphere_coherent. rewrite Hsph. congruence.
  - intros d. rewrite (footstepProps_mapSt images d app app' Hmap), Hfoot.
    now rewrite Footstep_useEffect_deps, Footstep_useEffect_hovered.
  - rewrite Hsph, Href. unfold displayedUrl. now rewrite Hmap, Hfind.
Qed.

Lemma reachable_invariant (images : list PanoramaImage.t) (app : App) :
  reachable images app -> committed_invariant images app.
Proof.
  induction 1 as [app Hmount | app ev app' _ IH Hstep].
  - exact (commit_invariant images _ _ initial_handling_invariant Hmount).
  - apply (commit_invariant images (handle images ev app)); [| exact Hstep].
    apply handle_handling_invariant, IH.
Qed.

(** A disabled footstep of a committed tree does not pulse. *)
Lemma disabled_footstep_at_rest (images : list PanoramaImage.t) (d : Direction)
  (app : App) :
  committed_invariant images app ->
  FootstepData.targetId (footstepProps images d app) = None ->
  interval (footstepSt d app) = false /\ scale (footstepSt d app) = 1%float.
Proof.
  intros Hinv Hnone.
  destruct (inv_coherent _ _ Hinv) as [Hsteps _].
  destruct (Hsteps d) as [Hlive Hrest].
  pose proof (inv_footstep_deps _ _ Hinv d) as Hdeps.
  rewrite (isDisabled_true _ Hnone) in Hdeps.
  destruct (interval (footstepSt d app)) eqn:Hint.
  - specialize (Hlive eq_refl). congruence.
  - split; [reflexivity | now apply Hrest].
Qed.

(** Whatever its state, a footstep with no target is drawn disabled: faded
    grey, no arrow, no label, no click handler, at the resolved placement. *)
Lemma Footstep_render_disabled (images : list PanoramaImage.t)
  (props : FootstepData.t) (st : FootstepState) :
  FootstepData.targetId props = None ->
  Footstep_render images props st =
  {| group_position := FootstepData.position props;
     group_rotation_y := FootstepData.rotation props;
     mesh_scale := scale st;
     mesh_onClick := None;
     material_opacity := 0.3%float;
     material_color := disabledColor;
     arrow := None;
     label := None |}.
Proof.
  intros Hnone. unfold Footstep_render, Footstep_onClick.
  rewrite (isDisabled_true _ Hnone), Hnone. simpl.
  now destruct (hovered st).
Qed.

(** The handlers of a footstep with no target: hover-enter does nothing, there
    is no click handler, and hover-exit only clears [hovered]. *)
Lemma disabled_handlers (props : FootstepData.t) (st : FootstepState) :
  FootstepData.targetId props = None ->
  Footstep_onPointerOver props st = st /\
  Footstep_onClick props = None /\
  Footstep_onPointerOut props st = setHovered false st.
Proof.
  intros Hnone. unfold Footstep_onPointerOver, Footstep_onClick.
  now rewrite (isDisabled_true _ Hnone).
Qed.

(** No interaction with a footstep that has no target writes the current id. *)
Lemma disabled_interaction_mapSt (images : list PanoramaImage.t) (d : Direction)
  (i : Interaction) (app : App) :
  FootstepData.targetId (footstepProps images d app) = None ->
  mapSt (handle images (interactionEvent d i) app) = mapSt app.
Proof.
  intros Hnone. rewrite handle_mapSt. destruct i; simpl; [reflexivity .. |].
  now rewrite Hnone.
Qed.

(** C4: in a running tree, a hover-enter, hover-exit or click on a footstep
    whose resolved target is none re-renders with the current scene id
    unchanged and with that footstep drawn exactly as disabled, at the
    position and rotation the resolver returns: faded, grey, at rest, with no
    arrow, no label and no click handler. *)
Theorem disabled_footstep_inert (images : list PanoramaImage.t) (app : App)
  (d : Direction) (i : Interaction) :
  reachable images app ->
  FootstepData.targetId (footstepProps images d app) = None ->
  exists app',
    step images app (interactionEvent d i) = Rendered app' /\
    currentImageId (mapSt app') = currentImageId (mapSt app) /\
    footstepProps images d app' = footstepProps images d app /\
    footstepView images d app' = disabledView (footstepProps images d app).
Proof.
  intros Hreach Hnone.
  pose proof (reachable_invariant _ _ Hreach) as Hinv.
  pose proof (disabled_interaction_mapSt images d i app Hnone) as Hmap.
  destruct (inv_current _ _ Hinv) as [img Hfind].
  destruct (commit_of_found images (handle images (interactionEvent d i) app) img)
    as [app' Hcommit]; [now rewrite Hmap |].
  exists app'. split; [exact Hcommit |].
  assert (Hmap' : mapSt app' = mapSt app).
  { apply commit_rendered in Hcommit as (_ & _ & -> & _). exact Hmap. }
  pose proof (footstepProps_mapSt images d app app' Hmap') as Hprops.
  split; [now rewrite Hmap' |]. split; [exact Hprops |].
  assert (Hreach' : reachable images app') by (eapply reachable_step; eauto).
  apply reachable_invariant in Hreach'.
  destruct (disabled_footstep_at_rest images d app' Hreach') as [_ Hscale];
    [now rewrite Hprops |].
  unfold footstepView. rewrite Footstep_render_disabled by now rewrite Hprops.
  unfold disabledView. now rewrite Hscale, Hprops.
Qed.

Lemma mountedApp_reachable : reachable panoramaImages mountedApp.
Proof. apply reachable_mount. reflexivity. Qed.

Lemma disabled_footstep_inert_witness :
  reachable panoramaImages mountedApp /\
  FootstepData.targetId (footstepProps panoramaImages DirPrev mountedApp) = None /\
  exists app',
    step panoramaImages mountedApp (interactionEvent DirPrev ClickOn) = Rendered app' /\
    currentImageId (mapSt app') = currentImageId (mapSt mountedApp) /\
    footstepProps panoramaImages DirPrev app' =
      footstepProps panoramaImages DirPrev mountedApp /\
    footstepView panoramaImages DirPrev app' =
      disabledView (footstepProps panoramaImages DirPrev mountedApp).
Proof.
  split; [exact mountedApp_reachable |]. split; [reflexivity |].
  apply (disabled_footstep_inert panoramaImages mountedApp DirPrev ClickOn).
  - exact mountedApp_reachable.
  - reflexivity.
Defined.

(** ** A current id outside the registry *)

(** Whenever [Map] renders, the texture, the location name and the data of
    both footsteps are those of the registry's scene with the current id: the
    defaults [PanoramaSphere] has for a failed lookup are never drawn. *)
Lemma Map_render_from_registry (images : list PanoramaImage.t) (app : App)
  (view : MapView) :
  Map_render images app = Rendered view ->
  exists img,
    In img images /\ PanoramaImage.id img = currentImageId (mapSt app) /\
    locationIndicator view = PanoramaImage.name img /\
    texture (sphere view) = PanoramaImage.url img /\
    footsteps (sphere view) =
      [ Footstep_render images (getPrevFootstepData (Some img)) (prevSt app);
        Footstep_render images (getNextFootstepData (Some img)) (nextSt app) ].
Proof.
  unfold Map_render.
  destruct (find_image images (currentImageId (mapSt app))) as [img |] eqn:Hfind;
    [| discriminate].
  intros [= <-]. exists img.
  destruct (find_image_some _ _ _ Hfind) as [Hin Hid].
  repeat split; try assumption.
  unfold PanoramaSphere_render. cbn [sphere footsteps]. now rewrite Hfind.
Qed.

(** Taken alone, [PanoramaSphere] given an id outside the registry would draw
    two disabled footsteps at the default placements. *)
Remark PanoramaSphere_alone_defaults (images : list PanoramaImage.t)
  (imageUrl : string) (i : Z) (p n : FootstepState) :
  find_image images i = None ->
  footsteps (PanoramaSphere_render images imageUrl i p n) =
  [ Footstep_render images
      (FootstepData.mk prevDefaultPosition prevDefaultRotation None DirPrev) p;
    Footstep_render images
      (FootstepData.mk nextDefaultPosition nextDefaultRotation None DirNext) n ].
Proof. unfold PanoramaSphere_render. now intros ->. Qed.

(** C7: when the current id does not resolve in the registry, [Map]'s render
    throws: no view is produced (no scene, no name, no footstep), the commit
    fails, and such a state is not one of a running tree. *)
Theorem unresolved_scene_throws (images : list PanoramaImage.t) (app : App) :
  find_image images (currentImageId (mapSt app)) = None ->
  Map_render images app = Thrown TypeError /\
  (forall view, Map_render images app <> Rendered view) /\
  commit images app = Thrown TypeError /\
  ~ reachable images app.
Proof.
  intros Hnone.
  assert (Hrender : Map_render images app = Thrown TypeError)
    by (unfold Map_render; now rewrite Hnone).
  split; [exact Hrender |]. split; [rewrite Hrender; discriminate |].
  split; [unfold commit; now rewrite Hrender |].
  intros Hreach. apply reachable_invariant in Hreach.
  destruct (inv_current _ _ Hreach) as [img Hfind]. congruence.
Qed.

Lemma unresolved_scene_throws_witness :
  find_image panoramaImages (currentImageId (mapSt strayApp)) = None /\
  Map_render panoramaImages strayApp = Thrown TypeError /\
  (forall view, Map_render panoramaImages strayApp <> Rendered view) /\
  commit panoramaImages strayApp = Thrown TypeError /\
  ~ reachable panoramaImages strayApp.
Proof.
  split; [reflexivity |].
  apply (unresolved_scene_throws panoramaImages strayApp). reflexivity.
Defined.

(** ** The camera reset *)

Lemma mount_resets_camera_once (images : list PanoramaImage.t) (app : App) :
  mount images = Rendered app ->
  cameraRotation (sphereSt app) = (0, 0, 0)%float /\
  cameraResets (sphereSt app) = 1%nat.
Proof.
  intros Hmount.
  apply commit_rendered in Hmount as (img & _ & _ & _ & ->). now split.
Qed.

(** C8: across a step of a running tree the camera is reset, to rotation
    (0, 0, 0) and once, when the image reference on display after the step
    differs from the one on display before it; when the reference is the same
    the commit does not reset and leaves the camera as the handler left it. *)
Theorem camera_reset_iff_image_changes (images : list PanoramaImage.t)
  (app : App) (ev : Event) (app' : App) :
  reachable images app ->
  step images app ev = Rendered app' ->
  (displayedUrl images app' <> displayedUrl images app ->
   cameraRotation (sphereSt app') = (0, 0, 0)%float /\
   cameraResets (sphereSt app') = Datatypes.S (cameraResets (sphereSt app))) /\
  (displayedUrl images app' = displayedUrl images app ->
   cameraResets (sphereSt app') = cameraResets (sphereSt app) /\
   cameraRotation (sphereSt app') =
     cameraRotation (sphereSt (handle images ev app))).
Proof.
  intros Hreach Hstep.
  pose proof (reachable_invariant _ _ Hreach) as Hinv.
  pose proof (handle_handling_invariant images ev app (inv_coherent _ _ Hinv))
    as [_ Hsphere].
  destruct (handle_sphere_refs images ev app) as (Href & _ & Hresets).
  rewrite (inv_sphere_ref _ _ Hinv) in Href.
  unfold step in Hstep.
  apply commit_rendered in Hstep as (img & Hfind & Hmap & _ & Hsph).
  assert (Hurl : displayedUrl images app' = Some (PanoramaImage.url img))
    by (unfold displayedUrl; now rewrite Hmap, Hfind).
  rewrite Hurl, Hsph, <- Hresets, <- Href. split; intros Hcmp.
  - apply PanoramaSphere_useEffect_changed; [exact Hsphere | congruence].
  - now rewrite PanoramaSphere_useEffect_same.
Qed.

Lemma camera_reset_iff_image_changes_witness :
  reachable panoramaImages mountedApp /\
  exists app',
    step panoramaImages mountedApp (Click DirNext) = Rendered app' /\
    cameraRotation (sphereSt app') = (0, 0, 0)%float /\
    cameraResets (sphereSt app') = 2%nat.
Proof.
  split; [exact mountedApp_reachable |].
  eexists. split; [reflexivity |].
  apply (camera_reset_iff_image_changes panoramaImages mountedApp (Click DirNext)).
  - exact mountedApp_reachable.
  - reflexivity.
  - discriminate.
Defined.

(** ** The hover label *)

(** C9: a hovered footstep with a target that resolves in the registry shows
    a label whose text is the direction's prefix, "Previous: " or "Next: ",
    followed by the target scene's name. *)
Theorem hover_label_names_target (images : list PanoramaImage.t)
  (props : FootstepData.t) (st : FootstepState) (t : Z) (img : PanoramaImage.t) :
  FootstepData.targetId props = Some t ->
  hovered st = true ->
  find_image images t = Some img ->
  option_map label_text (label (Footstep_render images props st)) =
  Some (directionPrefix (FootstepData.direction props) ++ PanoramaImage.name img).
Proof.
  intros Htarget Hhover Hfind. unfold Footstep_render. cbn [label].
  rewrite Hhover, Htarget, Hfind. cbn [option_map text_of label_text].
  now destruct (FootstepData.direction props).
Qed.

Lemma hover_label_names_target_witness :
  option_map label_text
    (label (Footstep_render panoramaImages (getNextFootstepData (Some entrance))
              (setHovered true initialFootstepState))) =
  Some "Next: Window Table".
Proof.
  exact (hover_label_names_target panoramaImages
           (getNextFootstepData (Some entrance))
           (setHovered true initialFootstepState) 2 windowTable
           eq_refl eq_refl eq_refl).
Defined.

(** ** Who keeps the current id valid *)

(** The ids the callers pass come from the registry: a navigation button
    passes the id of a listed scene, a footstep the link of the current scene. *)
Lemma handle_preserves_valid (images : list PanoramaImage.t) :
  (forall a d i, In a images -> link d a = Some i -> valid_id images i) ->
  forall ev app,
    valid_id images (currentImageId (mapSt app)) ->
    valid_id images (currentImageId (mapSt (handle images ev app))).
Proof.
  intros Hlinks ev app Hvalid. rewrite handle_mapSt.
  destruct ev as [d | d | d | d | k | r]; try assumption.
  - destruct (FootstepData.targetId (footstepProps images d app)) as [t |] eqn:Ht;
      [| assumption].
    rewrite handleNavigate_sets.
    destruct (find_image_valid images _ Hvalid) as (img & Hfind & Hin & _).
    unfold footstepProps in Ht. rewrite Hfind, resolver_targetId_raw in Ht.
    apply or_null_some in Ht. exact (Hlinks img d t Hin Ht).
  - unfold navButton_onClick.
    destruct (nth_error images k) as [img |] eqn:Hnth; [| assumption].
    apply nth_error_In in Hnth. simpl. unfold valid_id, ids. now apply in_map.
Qed.

(** C10: [handleNavigate] sets the current id to any integer it is given,
    valid or not (99 is not an id of the compiled-in registry); validity of the
    current id is kept by the callers: every handler of the tree maps a valid
    current id to a valid one, so that every state of the running tree has a
    valid current id. *)
Theorem navigate_performs_no_validation :
  (forall i st, currentImageId (handleNavigate i st) = i) /\
  (~ valid_id panoramaImages 99 /\
   currentImageId (handleNavigate 99 initialMapState) = 99) /\
  (forall ev app,
     valid_id panoramaImages (currentImageId (mapSt app)) ->
     valid_id panoramaImages (currentImageId (mapSt (handle panoramaImages ev app)))) /\
  (forall app,
     reachable panoramaImages app ->
     valid_id panoramaImages (currentImageId (mapSt app))).
Proof.
  split; [reflexivity |]. split; [| split].
  - split; [| reflexivity]. apply find_image_none. reflexivity.
  - exact (handle_preserves_valid panoramaImages panoramaImages_links).
  - intros app Hreach. apply reachable_invariant in Hreach.
    destruct (inv_current _ _ Hreach) as [img Hfind].
    apply find_image_some in Hfind as [Hin <-].
    unfold valid_id, ids. now apply in_map.
Qed.

(** * Further properties of the component *)

(** ** What a handler does to a footstep *)

Lemma Direction_eqb_eq (a b : Direction) : Direction_eqb a b = true -> a = b.
Proof. now destruct a, b. Qed.

Lemma Direction_eqb_refl (a : Direction) : Direction_eqb a a = true.
Proof. now destruct a. Qed.

(** The state of a footstep after a handler is its state before, or that
    state with [hovered] written, or that state after a tick of its timer. *)
Lemma handle_footstep_cases (images : list PanoramaImage.t) (ev : Event)
  (app : App) (d : Direction) :
  let st := footstepSt d app in
  let st' := footstepSt d (handle images ev app) in
  st' = st \/ st' = setHovered true st \/ st' = setHovered false st \/
  st' = Footstep_tick st.
Proof.
  destruct ev as [e | e | e | e | k | r]; cbn zeta.
  - cbn [handle]. rewrite footstepSt_withFootstepSt.
    destruct (Direction_eqb e d) eqn:He; [| now left].
    apply Direction_eqb_eq in He as ->.
    unfold Footstep_onPointerOver. destruct (negb _); auto.
  - cbn [handle]. rewrite footstepSt_withFootstepSt.
    destruct (Direction_eqb e d) eqn:He; [| now left].
    apply Direction_eqb_eq in He as ->. auto.
  - rewrite handle_click.
    destruct (FootstepData.targetId (footstepProps images e app));
      rewrite ?footstepSt_withMapSt; now left.
  - cbn [handle]. rewrite footstepSt_withFootstepSt.
    destruct (Direction_eqb e d) eqn:He; [| now left].
    apply Direction_eqb_eq in He as ->. auto.
  - cbn [handle]. rewrite footstepSt_withMapSt. now left.
  - left. now destruct d.
Qed.

Lemma Footstep_tick_fields (st : FootstepState) :
  hovered (Footstep_tick st) = hovered st /\
  interval (Footstep_tick st) = interval st /\
  effectDeps (Footstep_tick st) = effectDeps st.
Proof. unfold Footstep_tick. destruct (interval st) eqn:Hint; cbn; auto. Qed.

Lemma handle_effectDeps (images : list PanoramaImage.t) (ev : Event)
  (app : App) (d : Direction) :
  effectDeps (footstepSt d (handle images ev app)) = effectDeps (footstepSt d app) /\
  interval (footstepSt d (handle images ev app)) = interval (footstepSt d app).
Proof.
  destruct (handle_footstep_cases images ev app d) as [-> | [-> | [-> | ->]]];
    try (now split).
  destruct (Footstep_tick_fields (footstepSt d app)) as (_ & -> & ->). now split.
Qed.

(** ** The pulse *)

Lemma pulse_step (s : float) :
  s = 1%float \/ s = 1.1%float ->
  let s' := if PrimFloat.eqb s 1%float then 1.1%float else 1%float in
  (s' = 1%float \/ s' = 1.1%float) /\
  (if PrimFloat.eqb s' 1%float then 1.1%float else 1%float) = s.
Proof. intros [-> | ->]; cbn; auto. Qed.

Lemma Footstep_tick_pulse (st : FootstepState) :
  footstep_pulse_invariant st -> footstep_pulse_invariant (Footstep_tick st).
Proof.
  intros Hinv. unfold Footstep_tick.
  destruct (interval st) eqn:Hint; [| exact Hinv].
  destruct Hinv as [Hlive Hscale].
  split; [intros _; exact Hint |]. cbn [scale setScale].
  apply (pulse_step (scale st) Hscale).
Qed.

Lemma Footstep_useEffect_pulse (props : FootstepData.t) (st : FootstepState) :
  footstep_pulse_invariant st ->
  footstep_pulse_invariant (Footstep_useEffect props st).
Proof.
  unfold Footstep_useEffect. intros Hinv.
  destruct (same_deps _ _); [exact Hinv |].
  destruct Hinv as [Hlive Hscale].
  destruct (hovered st && negb (isDisabled props))%bool eqn:Hpulse; split; cbn;
    auto.
  intros [= Hh Hd]. rewrite Hh, Hd in Hpulse. discriminate.
Qed.

Lemma handle_pulse (images : list PanoramaImage.t) (ev : Event) (app : App) :
  (forall d, footstep_pulse_invariant (footstepSt d app)) ->
  forall d, footstep_pulse_invariant (footstepSt d (handle images ev app)).
Proof.
  intros Hinv d. specialize (Hinv d).
  destruct (handle_footstep_cases images ev app d) as [-> | [-> | [-> | ->]]];
    try exact Hinv.
  now apply Footstep_tick_pulse.
Qed.

Lemma reachable_pulse_invariant (images : list PanoramaImage.t) (app : App) :
  reachable images app -> forall d, footstep_pulse_invariant (footstepSt d app).
Proof.
  induction 1 as [app Hmount | app ev app' _ IH Hstep]; intros d.
  - apply commit_rendered in Hmount as (_ & _ & _ & Hfoot & _). rewrite Hfoot.
    apply Footstep_useEffect_pulse. destruct d; split; cbn; auto; discriminate.
  - apply commit_rendered in Hstep as (_ & _ & _ & Hfoot & _). rewrite Hfoot.
    apply Footstep_useEffect_pulse. now apply handle_pulse.
Qed.

Lemma hoveredApp_reachable : reachable panoramaImages hoveredApp.
Proof.
  apply (reachable_step panoramaImages mountedApp (PointerOver DirNext));
    [exact mountedApp_reachable | reflexivity].
Qed.

Lemma pulsedApp_reachable : reachable panoramaImages pulsedApp.
Proof.
  apply (reachable_step panoramaImages hoveredApp (Tick DirNext));
    [exact hoveredApp_reachable | reflexivity].
Qed.

Lemma restedApp_reachable : reachable panoramaImages restedApp.
Proof.
  apply (reachable_step panoramaImages pulsedApp (PointerOut DirNext));
    [exact pulsedApp_reachable | reflexivity].
Qed.

(** After the effects of a commit the timer is live exactly while the
    footstep is hovered and has a target. *)
Lemma committed_interval (images : list PanoramaImage.t) (app : App)
  (d : Direction) :
  reachable images app ->
  interval (footstepSt d app) =
  (hovered (footstepSt d app) && negb (isDisabled (footstepProps images d app)))%bool.
Proof.
  intros Hreach.
  pose proof (reachable_invariant _ _ Hreach) as Hinv.
  pose proof (inv_footstep_deps _ _ Hinv d) as Hdeps.
  destruct (inv_coherent _ _ Hinv) as [Hco _].
  destruct (Hco d) as [Hlive _].
  destruct (reachable_pulse_invariant _ _ Hreach d) as [Hback _].
  destruct (interval (footstepSt d app)) eqn:Hint.
  - specialize (Hlive eq_refl). rewrite Hlive in Hdeps.
    injection Hdeps as <- <-. reflexivity.
  - destruct (hovered (footstepSt d app)), (isDisabled (footstepProps images d app));
      try reflexivity.
    specialize (Hback Hdeps). discriminate.
Qed.

(** X1: once the effects of a commit have run, the pulse timer of a footstep
    is live exactly while the footstep is hovered and has a target.  No
    handler starts or stops the timer: in the render between a handler and
    the effects it is as live as it was after the commit before. *)
Theorem pulse_live_iff_hovered_enabled (images : list PanoramaImage.t) (app : App)
  (d : Direction) :
  reachable images app ->
  (interval (footstepSt d app) = true <->
   hovered (footstepSt d app) = true /\
   FootstepData.targetId (footstepProps images d app) <> None) /\
  (forall ev,
     interval (footstepSt d (handle images ev app)) = interval (footstepSt d app)).
Proof.
  intros Hreach. split; [| intros ev; apply handle_effectDeps].
  rewrite (committed_interval images app d Hreach). unfold isDisabled.
  destruct (hovered (footstepSt d app)),
    (FootstepData.targetId (footstepProps images d app)); cbn; split;
    solve [ intros; split; [reflexivity | discriminate]
          | discriminate
          | intros [H1 H2]; solve [discriminate | now contradiction H2]
          | reflexivity ].
Qed.

Lemma pulse_live_iff_hovered_enabled_witness :
  reachable panoramaImages hoveredApp /\
  hovered (footstepSt DirNext hoveredApp) = true /\
  FootstepData.targetId (footstepProps panoramaImages DirNext hoveredApp) = Some 2 /\
  interval (footstepSt DirNext hoveredApp) = true /\
  interval (footstepSt DirNext
              (handle panoramaImages (PointerOut DirNext) hoveredApp)) = true.
Proof.
  split; [exact hoveredApp_reachable |]. split; [reflexivity |].
  split; [reflexivity |].
  destruct (pulse_live_iff_hovered_enabled panoramaImages hoveredApp DirNext
              hoveredApp_reachable) as [Hlive Hkept].
  assert (Hint : interval (footstepSt DirNext hoveredApp) = true).
  { apply Hlive. split; [reflexivity | discriminate]. }
  split; [exact Hint |]. rewrite Hkept. exact Hint.
Defined.

(** X2: once the effects of a commit have run, the scale of a footstep is 1
    or 1.1, and it is 1 whenever the footstep is not hovered or has no target.
    In the render between a handler and the effects the scale is still 1 or
    1.1, and it is 1 unless the timer is live; there a footstep the pointer
    has just left can still be drawn at 1.1, until the effect sets it to 1. *)
Theorem scale_one_unless_pulsing (images : list PanoramaImage.t) (app : App)
  (d : Direction) :
  reachable images app ->
  (scale (footstepSt d app) = 1%float \/ scale (footstepSt d app) = 1.1%float) /\
  (hovered (footstepSt d app) = false \/
   FootstepData.targetId (footstepProps images d app) = None ->
   scale (footstepSt d app) = 1%float) /\
  (forall ev,
     let st' := footstepSt d (handle images ev app) in
     (scale st' = 1%float \/ scale st' = 1.1%float) /\
     (interval st' = false -> scale st' = 1%float)).
Proof.
  intros Hreach. split; [apply (reachable_pulse_invariant _ _ Hreach d) |].
  pose proof (reachable_invariant _ _ Hreach) as Hinv.
  destruct (inv_coherent _ _ Hinv) as [Hco _]. split.
  - intros Hidle. destruct (Hco d) as [_ Hrest]. apply Hrest.
    rewrite (committed_interval images app d Hreach).
    destruct Hidle as [-> | Hnone]; [reflexivity |].
    rewrite (isDisabled_true _ Hnone). apply andb_false_r.
  - intros ev. cbn zeta. split.
    + apply (handle_pulse images ev app (reachable_pulse_invariant _ _ Hreach) d).
    + apply (handle_coherent images ev app Hco d).
Qed.

Lemma scale_one_unless_pulsing_witness :
  (reachable panoramaImages pulsedApp /\
   scale (footstepSt DirNext pulsedApp) = 1.1%float) /\
  (hovered (footstepSt DirNext
              (handle panoramaImages (PointerOut DirNext) pulsedApp)) = false /\
   scale (footstepSt DirNext
            (handle panoramaImages (PointerOut DirNext) pulsedApp)) = 1.1%float) /\
  (step panoramaImages pulsedApp (PointerOut DirNext) = Rendered restedApp /\
   reachable panoramaImages restedApp /\
   hovered (footstepSt DirNext restedApp) = false /\
   scale (footstepSt DirNext restedApp) = 1%float).
Proof.
  split; [split; [exact pulsedApp_reachable | reflexivity] |].
  split; [split; reflexivity |].
  split; [reflexivity |]. split; [exact restedApp_reachable |].
  split; [reflexivity |].
  apply (scale_one_unless_pulsing panoramaImages restedApp DirNext
           restedApp_reachable).
  left. reflexivity.
Defined.

(** ** Commits that have nothing to do *)

Lemma Footstep_useEffect_same (props : FootstepData.t) (st : FootstepState) :
  effectDeps st = Some (hovered st, isDisabled props) ->
  Footstep_useEffect props st = st.
Proof.
  unfold Footstep_useEffect. intros ->. cbn [same_deps fst snd].
  now rewrite !Bool.eqb_reflx.
Qed.

Lemma commit_settled (images : list PanoramaImage.t) (app : App) :
  settled images app -> commit images app = Rendered app.
Proof.
  intros ((img & Hfind) & Hdeps & Hdep).
  unfold commit, Map_render. rewrite Hfind.
  cbn [sphere texture PanoramaSphere_render].
  pose proof (Footstep_useEffect_same _ _ (Hdeps DirPrev)) as Hp.
  pose proof (Footstep_useEffect_same _ _ (Hdeps DirNext)) as Hn.
  cbn [footstepSt] in Hp, Hn. rewrite Hp, Hn.
  unfold PanoramaSphere_useEffect.
  unfold displayedUrl in Hdep. rewrite Hfind in Hdep. cbn in Hdep.
  apply string_opt_eqb_true in Hdep. rewrite Hdep. now destruct app.
Qed.

Lemma reachable_settled (images : list PanoramaImage.t) (app : App) :
  reachable images app -> settled images app.
Proof.
  intros Hreach. apply reachable_invariant in Hreach.
  destruct (inv_coherent _ _ Hreach) as [_ Hsphere].
  repeat split.
  - apply (inv_current _ _ Hreach).
  - apply (inv_footstep_deps _ _ Hreach).
  - rewrite <- Hsphere. apply (inv_sphere_ref _ _ Hreach).
Qed.

Lemma handle_hovered (images : list PanoramaImage.t) (ev : Event) (app : App)
  (d' : Direction) :
  hovered (footstepSt d' (handle images ev app)) = hoveredAfter images app ev d'.
Proof.
  destruct ev as [e | e | e | e | k | r]; cbn [hoveredAfter].
  - cbn [handle]. rewrite footstepSt_withFootstepSt.
    destruct (Direction_eqb e d') eqn:He; [| reflexivity].
    apply Direction_eqb_eq in He as ->. unfold Footstep_onPointerOver.
    now destruct (negb _).
  - cbn [handle]. rewrite footstepSt_withFootstepSt.
    now destruct (Direction_eqb e d').
  - rewrite handle_click.
    destruct (FootstepData.targetId (footstepProps images e app));
      now rewrite ?footstepSt_withMapSt.
  - cbn [handle]. rewrite footstepSt_withFootstepSt.
    destruct (Direction_eqb e d') eqn:He; [| reflexivity].
    apply Direction_eqb_eq in He as ->. apply Footstep_tick_fields.
  - cbn [handle]. now rewrite footstepSt_withMapSt.
  - now destruct d'.
Qed.

(** A handler that writes neither the current id nor a [hovered] changes no
    dependency array: the commit runs no effect. *)
Lemma step_without_rerun (images : list PanoramaImage.t) (ev : Event) (app : App) :
  reachable images app ->
  mapSt (handle images ev app) = mapSt app ->
  (forall d, hoveredAfter images app ev d = hovered (footstepSt d app)) ->
  step images app ev = Rendered (handle images ev app).
Proof.
  intros Hreach Hmap Hhov. apply reachable_settled in Hreach.
  destruct Hreach as (Hcur & Hdeps & Hdep).
  apply commit_settled. repeat split.
  - now rewrite Hmap.
  - intros d. destruct (handle_effectDeps images ev app d) as [-> _].
    now rewrite handle_hovered, Hhov, (footstepProps_mapSt images d _ _ Hmap).
  - destruct (handle_sphere_refs images ev app) as (_ & -> & _).
    now rewrite (displayedUrl_mapSt images _ _ Hmap).
Qed.

Lemma withFootstepSt_same (d : Direction) (app : App) :
  withFootstepSt d (footstepSt d app) app = app.
Proof. now destruct d, app. Qed.

Lemma withFootstepSt_twice (d : Direction) (x y : FootstepState) (app : App) :
  withFootstepSt d x (withFootstepSt d y app) = withFootstepSt d x app.
Proof. now destruct d. Qed.

Lemma idle_handle (images : list PanoramaImage.t) (app : App) (ev : Event) :
  idle images app ev -> handle images ev app = app.
Proof.
  destruct ev as [d | d | d | d | k | r]; cbn [idle]; intros Hidle.
  - cbn [handle]. unfold Footstep_onPointerOver.
    rewrite (isDisabled_true _ Hidle). apply withFootstepSt_same.
  - cbn [handle]. unfold Footstep_onPointerOut.
    replace (setHovered false (footstepSt d app)) with (footstepSt d app);
      [apply withFootstepSt_same |].
    now destruct (footstepSt d app); cbn in *; subst.
  - rewrite handle_click. now rewrite Hidle.
  - cbn [handle]. unfold Footstep_tick. rewrite Hidle. apply withFootstepSt_same.
  - cbn [handle]. unfold navButton_onClick, setCurrentImageId.
    destruct (nth_error images k) as [img |]; [rewrite Hidle |];
      now destruct app as [[c] p n s].
  - cbn [handle]. unfold orbit. destruct app as [m p n [l u c k]].
    cbn in *. now subst.
Qed.

(** X3: in a running tree an idle event (hover-enter or click on a footstep
    without target, hover-exit from a footstep not hovered, a navigation
    button of the current scene, ...) re-renders to the very same tree: no
    state is written and no effect runs again. *)
Theorem idle_event_changes_nothing (images : list PanoramaImage.t) (app : App)
  (ev : Event) :
  reachable images app -> idle images app ev ->
  step images app ev = Rendered app.
Proof.
  intros Hreach Hidle. unfold step.
  rewrite (idle_handle images app ev Hidle).
  apply commit_settled, reachable_settled, Hreach.
Qed.

Lemma idle_event_changes_nothing_witness :
  reachable panoramaImages mountedApp /\
  idle panoramaImages mountedApp (NavButton 0) /\
  step panoramaImages mountedApp (NavButton 0) = Rendered mountedApp.
Proof.
  split; [exact mountedApp_reachable |]. split; [reflexivity |].
  apply (idle_event_changes_nothing panoramaImages mountedApp (NavButton 0)).
  - exact mountedApp_reachable.
  - reflexivity.
Defined.

Lemma Footstep_tick_twice (st : FootstepState) :
  scale st = 1%float \/ scale st = 1.1%float ->
  Footstep_tick (Footstep_tick st) = st.
Proof.
  intros Hscale. destruct st as [h s i e]. unfold Footstep_tick. cbn in *.
  destruct i; cbn; [| reflexivity].
  unfold setScale. cbn. f_equal. apply (pulse_step s Hscale).
Qed.

Lemma step_tick (images : list PanoramaImage.t) (app : App) (d : Direction) :
  reachable images app ->
  step images app (Tick d) =
  Rendered (withFootstepSt d (Footstep_tick (footstepSt d app)) app).
Proof.
  intros Hreach.
  apply (step_without_rerun images (Tick d) app Hreach); [| reflexivity].
  apply mapSt_withFootstepSt.
Qed.

Lemma pulse_step_differs (s : float) :
  s = 1%float \/ s = 1.1%float ->
  (if PrimFloat.eqb s 1%float then 1.1%float else 1%float) <> s.
Proof. intros [-> | ->]; cbn; apply float_neq_by_eqb; reflexivity. Qed.

(** X4: in a running tree a tick of the timer of a footstep that is hovered
    and has a target re-renders with that footstep's scale moved to the other
    of the two values (1 to 1.1, anything else to 1), a scale different from
    the one before, and with nothing else changed; a second tick gives back
    the tree as it was. *)
Theorem two_ticks_restore (images : list PanoramaImage.t) (app : App)
  (d : Direction) :
  reachable images app ->
  hovered (footstepSt d app) = true ->
  FootstepData.targetId (footstepProps images d app) <> None ->
  exists app1,
    step images app (Tick d) = Rendered app1 /\
    scale (footstepSt d app1) =
      (if PrimFloat.eqb (scale (footstepSt d app)) 1%float
       then 1.1%float else 1%float) /\
    scale (footstepSt d app1) <> scale (footstepSt d app) /\
    app1 =
      withFootstepSt d
        {| hovered := hovered (footstepSt d app);
           scale := scale (footstepSt d app1);
           interval := interval (footstepSt d app);
           effectDeps := effectDeps (footstepSt d app) |} app /\
    step images app1 (Tick d) = Rendered app.
Proof.
  intros Hreach Hhover Htarget.
  pose proof (reachable_pulse_invariant _ _ Hreach d) as [_ Hscale].
  assert (Hlive : interval (footstepSt d app) = true).
  { rewrite (committed_interval images app d Hreach), Hhover. unfold isDisabled.
    now destruct (FootstepData.targetId (footstepProps images d app)). }
  assert (Htick : Footstep_tick (footstepSt d app) =
            {| hovered := hovered (footstepSt d app);
               scale := if PrimFloat.eqb (scale (footstepSt d app)) 1%float
                        then 1.1%float else 1%float;
               interval := interval (footstepSt d app);
               effectDeps := effectDeps (footstepSt d app) |}).
  { revert Hlive. unfold Footstep_tick.
    destruct (footstepSt d app) as [h s i e]. cbn. now intros ->. }
  pose proof (step_tick images app d Hreach) as Hstep.
  set (app1 := withFootstepSt d (Footstep_tick (footstepSt d app)) app) in *.
  assert (Hst1 : footstepSt d app1 = Footstep_tick (footstepSt d app)).
  { unfold app1. now rewrite footstepSt_withFootstepSt, Direction_eqb_refl. }
  exists app1. split; [exact Hstep |].
  rewrite Hst1, Htick. cbn [scale]. split; [reflexivity |].
  split; [now apply pulse_step_differs |]. split.
  - unfold app1. now rewrite Htick.
  - assert (Hreach1 : reachable images app1)
      by (eapply reachable_step; [exact Hreach | exact Hstep]).
    rewrite (step_tick images app1 d Hreach1), Hst1. unfold app1.
    rewrite withFootstepSt_twice, Footstep_tick_twice by exact Hscale.
    now rewrite withFootstepSt_same.
Qed.

Lemma two_ticks_restore_witness :
  reachable panoramaImages hoveredApp /\
  scale (footstepSt DirNext hoveredApp) = 1%float /\
  exists app1,
    step panoramaImages hoveredApp (Tick DirNext) = Rendered app1 /\
    scale (footstepSt DirNext app1) = 1.1%float /\
    step panoramaImages app1 (Tick DirNext) = Rendered hoveredApp.
Proof.
  split; [exact hoveredApp_reachable |]. split; [reflexivity |].
  destruct (two_ticks_restore panoramaImages hoveredApp DirNext
              hoveredApp_reachable eq_refl)
    as (app1 & Hstep & Hscale & _ & _ & Hback); [discriminate |].
  exists app1. split; [exact Hstep |]. split; [exact Hscale | exact Hback].
Defined.

(** X5: a step writes [hovered] of a footstep only on that footstep's own
    pointer events: hover-enter sets it when the footstep has a target,
    hover-exit clears it; clicks, navigation, ticks and drags leave it, so a
    footstep hovered when its click navigates is still hovered in the new
    scene. *)
Theorem hovered_across_step (images : list PanoramaImage.t) (app : App)
  (ev : Event) (app' : App) (d : Direction) :
  step images app ev = Rendered app' ->
  hovered (footstepSt d app') = hoveredAfter images app ev d.
Proof.
  intros Hstep. apply commit_rendered in Hstep as (_ & _ & _ & Hfoot & _).
  now rewrite Hfoot, Footstep_useEffect_hovered, handle_hovered.
Qed.

Lemma hovered_across_step_witness :
  exists app',
    step panoramaImages mountedApp (PointerOver DirNext) = Rendered app' /\
    hovered (footstepSt DirNext app') = true /\
    hovered (footstepSt DirPrev app') = false.
Proof.
  eexists. split; [reflexivity |]. split.
  - exact (hovered_across_step panoramaImages mountedApp (PointerOver DirNext)
             _ DirNext eq_refl).
  - reflexivity.
Defined.

(** ** Where a click leads *)

Lemma find_image_invalid (images : list PanoramaImage.t) (i : Z) :
  ~ valid_id images i -> find_image images i = None.
Proof.
  intros Hinvalid. destruct (find_image images i) as [img |] eqn:Hfind;
    [| reflexivity].
  exfalso. apply Hinvalid. apply find_image_some in Hfind as [Hin <-].
  unfold valid_id, ids. now apply in_map.
Qed.

Lemma commit_mapSt_valid (images : list PanoramaImage.t) (app : App) :
  valid_id images (currentImageId (mapSt app)) ->
  exists app', commit images app = Rendered app' /\ mapSt app' = mapSt app.
Proof.
  intros Hvalid. destruct (find_image_valid images _ Hvalid) as (img & Hfind & _).
  destruct (commit_of_found images app img Hfind) as [app' Hcommit].
  exists app'. split; [exact Hcommit |].
  now apply commit_rendered in Hcommit as (_ & _ & -> & _).
Qed.

Lemma commit_mapSt_invalid (images : list PanoramaImage.t) (app : App) :
  ~ valid_id images (currentImageId (mapSt app)) ->
  commit images app = Thrown TypeError.
Proof.
  intros Hinvalid. unfold commit, Map_render.
  now rewrite (find_image_invalid images _ Hinvalid).
Qed.

Lemma step_click_target (images : list PanoramaImage.t) (app : App)
  (d : Direction) (t : Z) :
  FootstepData.targetId (footstepProps images d app) = Some t ->
  valid_id images t ->
  exists app',
    step images app (Click d) = Rendered app' /\ currentImageId (mapSt app') = t.
Proof.
  intros Ht Hvalid. unfold step. rewrite handle_click, Ht.
  destruct (commit_mapSt_valid images
              (withMapSt (handleNavigate t (mapSt app)) app) Hvalid)
    as (app' & Hcommit & Hmap).
  exists app'. split; [exact Hcommit | now rewrite Hmap].
Qed.

(** X7: a click on a footstep with target [t] renders the scene [t] when [t]
    is an id of the registry, and makes the render throw when it is not (a
    dangling link). *)
Theorem click_navigates_or_throws (images : list PanoramaImage.t) (app : App)
  (d : Direction) (t : Z) :
  FootstepData.targetId (footstepProps images d app) = Some t ->
  (valid_id images t ->
   exists app',
     step images app (Click d) = Rendered app' /\ currentImageId (mapSt app') = t) /\
  (~ valid_id images t -> step images app (Click d) = Thrown TypeError).
Proof.
  intros Ht. split; [now apply step_click_target |].
  intros Hinvalid. unfold step. rewrite handle_click, Ht.
  now apply commit_mapSt_invalid.
Qed.

Lemma click_navigates_or_throws_witness :
  FootstepData.targetId (footstepProps entranceAlone DirNext mountedApp) = Some 2 /\
  ~ valid_id entranceAlone 2 /\
  step entranceAlone mountedApp (Click DirNext) = Thrown TypeError.
Proof.
  assert (Hinvalid : ~ valid_id entranceAlone 2)
    by (apply find_image_none; reflexivity).
  split; [reflexivity |]. split; [exact Hinvalid |].
  exact (proj2 (click_navigates_or_throws entranceAlone mountedApp DirNext 2 eq_refl)
           Hinvalid).
Defined.

(** X8: over a registry whose links are all ids of the registry, no event
    makes a running tree throw. *)
Theorem valid_links_never_throw (images : list PanoramaImage.t) (app : App)
  (ev : Event) :
  (forall a d i, In a images -> link d a = Some i -> valid_id images i) ->
  reachable images app ->
  exists app', step images app ev = Rendered app'.
Proof.
  intros Hlinks Hreach. apply reachable_invariant in Hreach.
  destruct (inv_current _ _ Hreach) as [img Hfind].
  assert (Hvalid : valid_id images (currentImageId (mapSt app))).
  { apply find_image_some in Hfind as [Hin <-].
    unfold valid_id, ids. now apply in_map. }
  apply (handle_preserves_valid images Hlinks ev) in Hvalid.
  destruct (commit_mapSt_valid images _ Hvalid) as (app' & Hcommit & _).
  now exists app'.
Qed.

Lemma valid_links_never_throw_witness :
  exists app', step panoramaImages mountedApp (Click DirNext) = Rendered app'.
Proof.
  exact (valid_links_never_throw panoramaImages mountedApp (Click DirNext)
           panoramaImages_links mountedApp_reachable).
Defined.

(** X9: the tree mounts exactly when the registry has a scene with id 1, the
    initial [currentImageId]; it then shows scene 1 with the camera reset
    once.  Over any other registry, the empty one included, mounting throws. *)
Theorem mount_needs_scene_one (images : list PanoramaImage.t) :
  ((exists app,
      mount images = Rendered app /\ currentImageId (mapSt app) = 1 /\
      cameraResets (sphereSt app) = 1%nat) <->
   valid_id images 1) /\
  (~ valid_id images 1 -> mount images = Thrown TypeError).
Proof.
  split; [split |].
  - intros (app & Hmount & _). apply commit_rendered in Hmount as (img & Hfind & _).
    apply find_image_some in Hfind as [Hin Hid].
    unfold valid_id, ids. change 1 with (currentImageId (mapSt initialApp)).
    rewrite <- Hid. now apply in_map.
  - intros Hvalid.
    destruct (commit_mapSt_valid images initialApp Hvalid) as (app & Hmount & Hmap).
    exists app. split; [exact Hmount |]. split; [now rewrite Hmap |].
    now apply commit_rendered in Hmount as (img & _ & _ & _ & ->).
  - apply (commit_mapSt_invalid images initialApp).
Qed.

(** ** Walking the chain *)

Lemma panoramaImages_positive (i : Z) : valid_id panoramaImages i -> 0 < i.
Proof.
  unfold valid_id, ids; simpl. intros Hi. intuition (subst; reflexivity).
Qed.

Lemma panoramaImages_symmetric (a b : PanoramaImage.t) :
  In a panoramaImages -> In b panoramaImages ->
  PanoramaImage.next a = Some (PanoramaImage.id b) ->
  PanoramaImage.prev b = Some (PanoramaImage.id a).
Proof.
  intros Ha Hb. each_scene Ha; each_scene Hb; simpl; intros Hnext;
    solve [reflexivity | discriminate].
Qed.

Lemma footstepProps_target (images : list PanoramaImage.t) (app : App)
  (d : Direction) (img : PanoramaImage.t) (t : Z) :
  find_image images (currentImageId (mapSt app)) = Some img ->
  link d img = Some t -> 0 < t ->
  FootstepData.targetId (footstepProps images d app) = Some t.
Proof.
  intros Hfind Hlink Hpos. unfold footstepProps.
  rewrite Hfind, resolver_targetId_raw, Hlink. cbn [or_null].
  now rewrite (truthy_id_positive t Hpos).
Qed.

(** X10: over a registry with positive ids and symmetric links, from a scene
    whose [next] is an id of the registry, a click on the Next footstep
    followed by a click on the Previous footstep renders the starting scene
    again. *)
Theorem next_then_prev_returns (images : list PanoramaImage.t) (app : App)
  (a : PanoramaImage.t) (nid : Z) :
  (forall i, valid_id images i -> 0 < i) ->
  (forall x y, In x images -> In y images ->
     PanoramaImage.next x = Some (PanoramaImage.id y) ->
     PanoramaImage.prev y = Some (PanoramaImage.id x)) ->
  find_image images (currentImageId (mapSt app)) = Some a ->
  PanoramaImage.next a = Some nid ->
  valid_id images nid ->
  exists app1 app2,
    step images app (Click DirNext) = Rendered app1 /\
    currentImageId (mapSt app1) = nid /\
    step images app1 (Click DirPrev) = Rendered app2 /\
    currentImageId (mapSt app2) = currentImageId (mapSt app).
Proof.
  intros Hpos Hsym Hfind Hnext Hvalid.
  destruct (find_image_some _ _ _ Hfind) as [Hina Hida].
  assert (Hvalida : valid_id images (PanoramaImage.id a))
    by (unfold valid_id, ids; now apply in_map).
  destruct (step_click_target images app DirNext nid) as (app1 & Hstep1 & Hcur1);
    [| exact Hvalid |].
  { apply (footstepProps_target images app DirNext a); auto. }
  destruct (find_image_valid images nid Hvalid) as (b & Hfindb & Hinb & Hidb).
  assert (Hprev : PanoramaImage.prev b = Some (PanoramaImage.id a)).
  { apply Hsym; [exact Hina | exact Hinb | now rewrite Hidb]. }
  destruct (step_click_target images app1 DirPrev (PanoramaImage.id a))
    as (app2 & Hstep2 & Hcur2); [| exact Hvalida |].
  { apply (footstepProps_target images app1 DirPrev b); auto.
    now rewrite Hcur1. }
  exists app1, app2. repeat split; try assumption. congruence.
Qed.

Lemma next_then_prev_returns_witness :
  exists app1 app2,
    step panoramaImages mountedApp (Click DirNext) = Rendered app1 /\
    currentImageId (mapSt app1) = 2 /\
    step panoramaImages app1 (Click DirPrev) = Rendered app2 /\
    currentImageId (mapSt app2) = currentImageId (mapSt mountedApp).
Proof.
  apply (next_then_prev_returns panoramaImages mountedApp entrance 2).
  - exact panoramaImages_positive.
  - exact panoramaImages_symmetric.
  - reflexivity.
  - reflexivity.
  - unfold valid_id. simpl. auto.
Defined.

(** ** The navigation bar *)

(** X11: over a registry with unique ids, the k-th button of the navigation
    bar renders the k-th scene: its id becomes current, the location
    indicator shows its name and the sphere its image. *)
Theorem navButton_jumps (images : list PanoramaImage.t) (app : App) (k : nat)
  (img : PanoramaImage.t) :
  NoDup (ids images) ->
  nth_error images k = Some img ->
  exists app' view,
    step images app (NavButton k) = Rendered app' /\
    currentImageId (mapSt app') = PanoramaImage.id img /\
    Map_render images app' = Rendered view /\
    locationIndicator view = PanoramaImage.name img /\
    texture (sphere view) = PanoramaImage.url img.
Proof.
  intros Hnodup Hnth.
  pose proof (find_image_unique images img Hnodup (nth_error_In _ _ Hnth)) as Hfind.
  assert (Hmap : mapSt (handle images (NavButton k) app) =
                 {| currentImageId := PanoramaImage.id img |}).
  { cbn [handle withMapSt mapSt]. unfold navButton_onClick. now rewrite Hnth. }
  destruct (commit_of_found images (handle images (NavButton k) app) img)
    as [app' Hcommit]; [now rewrite Hmap |].
  assert (Hmap' : mapSt app' = {| currentImageId := PanoramaImage.id img |}).
  { apply commit_rendered in Hcommit as (_ & _ & -> & _). exact Hmap. }
  exists app'. eexists. split; [exact Hcommit |]. split; [now rewrite Hmap' |].
  unfold Map_render. rewrite Hmap'. cbn [currentImageId]. rewrite Hfind.
  repeat split.
Qed.

Lemma navButton_jumps_witness :
  exists app' view,
    step panoramaImages mountedApp (NavButton 2) = Rendered app' /\
    currentImageId (mapSt app') = 3 /\
    Map_render panoramaImages app' = Rendered view /\
    locationIndicator view = "Window Table 2" /\
    texture (sphere view) = "/assets/360%20images/3-Window%20Table%202.jpeg".
Proof.
  apply (navButton_jumps panoramaImages mountedApp 2 windowTable2).
  - unfold ids; simpl.
    repeat (constructor; [simpl; intuition discriminate |]). constructor.
  - reflexivity.
Defined.

Lemma active_none (cur : Z) (images : list PanoramaImage.t) :
  ~ In cur (ids images) ->
  filter snd (map (fun img => (PanoramaImage.name img,
                                cur =? PanoramaImage.id img)) images) = [].
Proof.
  induction images as [| a rest IH]; [reflexivity |]. cbn. intros Hnotin.
  destruct (Z.eqb_spec cur (PanoramaImage.id a)) as [Heq | _].
  - exfalso. apply Hnotin. now left.
  - apply IH. intros Hin. apply Hnotin. now right.
Qed.

Lemma active_one (cur : Z) (images : list PanoramaImage.t) :
  NoDup (ids images) -> In cur (ids images) ->
  List.length (filter snd (map (fun img => (PanoramaImage.name img,
                                       cur =? PanoramaImage.id img)) images)) = 1%nat.
Proof.
  induction images as [| a rest IH]; [contradiction |]. cbn.
  intros Hnodup Hin. inversion Hnodup as [| ? ? Hnotin Hrest]; subst.
  destruct (Z.eqb_spec cur (PanoramaImage.id a)) as [Heq | Hneq].
  - cbn. rewrite active_none; [reflexivity | now rewrite Heq].
  - apply IH; [exact Hrest |]. destruct Hin as [Heq | Hin]; [congruence | exact Hin].
Qed.

(** X12: over a registry with unique ids, every render of [Map] lists one
    button per scene, in registry order and under the scene's name, and marks
    exactly one of them active. *)
Theorem one_active_button (images : list PanoramaImage.t) (app : App)
  (view : MapView) :
  NoDup (ids images) ->
  Map_render images app = Rendered view ->
  map fst (navButtons view) = map PanoramaImage.name images /\
  List.length (filter snd (navButtons view)) = 1%nat.
Proof.
  intros Hnodup. unfold Map_render.
  destruct (find_image images (currentImageId (mapSt app))) as [img |] eqn:Hfind;
    [| discriminate].
  intros [= <-]. cbn [navButtons]. split.
  - rewrite map_map. reflexivity.
  - apply active_one; [exact Hnodup |].
    apply find_image_some in Hfind as [Hin <-]. unfold ids. now apply in_map.
Qed.

Lemma one_active_button_witness :
  exists view,
    Map_render panoramaImages mountedApp = Rendered view /\
    map fst (navButtons view) =
      ["Entrance"; "Window Table"; "Window Table 2"; "Corner"] /\
    List.length (filter snd (navButtons view)) = 1%nat.
Proof.
  eexists. split; [reflexivity |].
  apply (one_active_button panoramaImages mountedApp).
  - unfold ids; simpl.
    repeat (constructor; [simpl; intuition discriminate |]). constructor.
  - reflexivity.
Defined.

(** ** The resolver, case by case *)

(** X13: the placement the resolver returns.  The position is the override's
    whenever the scene has one (an array is truthy, the zero vector included),
    else the direction's default.  The rotation is the override's when that
    number is truthy, and the direction's default when there is no override or
    its rotation is falsy. *)
Theorem resolver_placement (d : Direction) (img : PanoramaImage.t) :
  FootstepData.position (getFootstepData d (Some img)) =
    match override d img with
    | Some o => FootstepPosition.position o
    | None => defaultPosition d
    end /\
  FootstepData.rotation (getFootstepData d (Some img)) =
    match override d img with
    | Some o =>
        if truthy_number (FootstepPosition.rotation o)
        then FootstepPosition.rotation o else defaultRotation d
    | None => defaultRotation d
    end /\
  FootstepData.direction (getFootstepData d (Some img)) = d.
Proof.
  split; [apply resolver_position |]. split; [| apply resolver_direction].
  destruct (override d img) as [o |] eqn:Ho.
  - destruct (truthy_number (FootstepPosition.rotation o)) eqn:Htruthy.
    + exact (resolver_rotation_override d img o Ho Htruthy).
    + exact (resolver_rotation_falsy d img o Ho Htruthy).
  - exact (proj2 (resolver_defaults d img Ho)).
Qed.

(** X14: every override of the compiled-in registry is honoured: for each of
    its scenes, looked up by its id, and each direction with an override, the
    resolver returns the override's position and rotation. *)
Theorem registry_overrides_honoured (img : PanoramaImage.t) (d : Direction)
  (o : FootstepPosition.t) :
  In img panoramaImages -> override d img = Some o ->
  let data := getFootstepData d (find_image panoramaImages (PanoramaImage.id img)) in
  FootstepData.position data = FootstepPosition.position o /\
  FootstepData.rotation data = FootstepPosition.rotation o.
Proof.
  intros Hin. each_scene Hin; destruct d; cbn [override PanoramaImage.prevFootstep
    PanoramaImage.nextFootstep entrance windowTable windowTable2 corner];
    intros Ho; try discriminate; injection Ho as <-; split; reflexivity.
Qed.

Lemma registry_overrides_honoured_witness :
  In corner panoramaImages /\
  let data := getFootstepData DirPrev
                (find_image panoramaImages (PanoramaImage.id corner)) in
  FootstepData.position data = (-3, -4, 8)%float /\
  FootstepData.rotation data = (Math_PI * 0.7)%float.
Proof.
  assert (Hin : In corner panoramaImages) by (simpl; auto 6).
  split; [exact Hin |].
  exact (registry_overrides_honoured corner DirPrev
           (FootstepPosition.mk (-3, -4, 8)%float (Math_PI * 0.7)%float)
           Hin eq_refl).
Defined.

(** X15: a footstep's target is never invented and never 0: when present it
    is a nonzero link of the current scene in that direction; a link to id 0
    resolves to no target, and a click on that footstep writes nothing. *)
Theorem target_is_nonzero_link (images : list PanoramaImage.t) (app : App)
  (d : Direction) :
  (forall t,
     FootstepData.targetId (footstepProps images d app) = Some t ->
     t <> 0 /\
     exists img,
       find_image images (currentImageId (mapSt app)) = Some img /\
       link d img = Some t) /\
  (forall img,
     find_image images (currentImageId (mapSt app)) = Some img ->
     link d img = Some 0 ->
     FootstepData.targetId (footstepProps images d app) = None /\
     handle images (Click d) app = app).
Proof.
  unfold footstepProps. split.
  - intros t Ht.
    destruct (find_image images (currentImageId (mapSt app))) as [img |] eqn:Hfind;
      [| now destruct d].
    rewrite resolver_targetId_raw in Ht.
    pose proof (or_null_some _ _ _ Ht) as Hlink. split; [| now exists img].
    rewrite Hlink in Ht. cbn in Ht. unfold truthy_id in Ht.
    destruct (Z.eqb_spec t 0); [discriminate | assumption].
  - intros img Hfind Hlink.
    assert (Hnone : FootstepData.targetId
                      (getFootstepData d
                         (find_image images (currentImageId (mapSt app)))) = None)
      by now rewrite Hfind, resolver_targetId_raw, Hlink.
    split; [exact Hnone |]. rewrite handle_click. unfold footstepProps.
    now rewrite Hnone.
Qed.

(** ** The click handler and the label *)

(** X16: the click handler of a footstep exists exactly when the footstep has
    a target; it then stops the event's propagation and calls [onClick] once,
    with that target. *)
Theorem click_handler_commands (props : FootstepData.t) :
  match Footstep_onClick props with
  | Some commands =>
      exists t, FootstepData.targetId props = Some t /\
                commands = [StopPropagation; OnClick t]
  | None => FootstepData.targetId props = None
  end.
Proof.
  unfold Footstep_onClick, handleClick, isDisabled.
  destruct (FootstepData.targetId props) as [t |]; [now exists t | reflexivity].
Qed.

(** X17: a footstep shows no label exactly when it is not hovered or has no
    target; a hovered footstep whose target is not an id of the registry shows
    the direction's prefix alone, with no name. *)
Theorem hover_label_edge_cases (images : list PanoramaImage.t)
  (props : FootstepData.t) (st : FootstepState) :
  (label (Footstep_render images props st) = None <->
   hovered st = false \/ FootstepData.targetId props = None) /\
  (forall t,
     hovered st = true -> FootstepData.targetId props = Some t ->
     find_image images t = None ->
     option_map label_text (label (Footstep_render images props st)) =
     Some (directionPrefix (FootstepData.direction props))).
Proof.
  unfold Footstep_render. cbn [label]. split.
  - destruct (hovered st), (FootstepData.targetId props); split;
      solve [auto | discriminate | intros [H | H]; discriminate].
  - intros t -> -> ->. cbn. now destruct (FootstepData.direction props).
Qed.

(** ** The lookup *)

(** X18: the registry lookup fails exactly on the ids no scene has, and over a
    registry with unique ids it finds each scene by that scene's id, and only
    scenes of the registry. *)
Theorem lookup_roundtrip (images : list PanoramaImage.t) :
  (forall i, find_image images i = None <-> ~ valid_id images i) /\
  (NoDup (ids images) ->
   forall img,
     In img images <-> find_image images (PanoramaImage.id img) = Some img).
Proof.
  split.
  - intros i. split; [apply find_image_none | apply find_image_invalid].
  - intros Hnodup img. split; [now apply find_image_unique |].
    intros Hfind. now apply find_image_some in Hfind.
Qed.
